(** * The group-closure helper of gpaw-raman-script

    Shallow embedding of [script/test_utils.py] ([SemigroupTree]) and of the
    symmetry fixtures of [tests/test_symmetry.py], with the properties the
    specification states about them. *)

From stdpp Require Import gmap list sorting strings.
From Stdlib Require Import ZArith Lia Ascii.

(** ** script/test_utils.py *)

Module TestUtils.

(** An entry of [SemigroupTree.decomps]: a bare [GeneratorIndex] for a leaf
    node, a tuple of two [NodeIndex] for a binary node. *)
Inductive decomp : Type :=
  | Leaf (gen_index : nat)
  | Binary (a_index b_index : nat).

#[global] Instance decomp_eq_dec : EqDecision decomp.
Proof. solve_decision. Defined.

(** The fields of a [SemigroupTree] object. *)
Record SemigroupTree (G : Type) : Type := MkTree {
  generators : list G;
  generator_indices : list nat;
  members : list G;
  decomps : list decomp;
}.

Arguments MkTree {G} _ _ _ _.
Arguments generators {G} _.
Arguments generator_indices {G} _.
Arguments members {G} _.
Arguments decomps {G} _.

Section Init.
Context {G K : Type} `{Countable K}.
Variable func : G → G → G.
Variable make_hashable : G → K.

(** The object under construction together with the local [all_seen]. *)
Definition build : Type := SemigroupTree G * gset K.

(** Body of the first [for] loop (lines 37-47): one generator of
    [enumerate(self.generators)]. *)
Definition seed_step (st : build) (ig : nat * G) : build :=
  let '(t, all_seen) := st in
  let '(gen_gen_index, gen) := ig in
  let gen_hashable := make_hashable gen in
  if decide (gen_hashable ∈ all_seen) then st
  else
    (MkTree (generators t)
            (generator_indices t ++ [length (members t)])
            (members t ++ [gen])
            (decomps t ++ [Leaf gen_gen_index]),
     all_seen ∪ {[gen_hashable]}).

(** [enumerate(l)] *)
Definition enumerate {A} (l : list A) : list (nat * A) :=
  imap (λ i x, (i, x)) l.

Definition seed (gens : list G) : build :=
  foldl seed_step (MkTree gens [] [] [], ∅) (enumerate gens).

(** What one iteration of the [while] body does to the object once
    [product] is known (lines 57-62). *)
Definition add_product (gen_node_index rhs_node_index : nat) (product : G)
    (st : build) : build :=
  let '(t, all_seen) := st in
  let product_hashable := make_hashable product in
  if decide (product_hashable ∈ all_seen) then st
  else
    (MkTree (generators t)
            (generator_indices t)
            (members t ++ [product])
            (decomps t ++ [Binary gen_node_index rhs_node_index]),
     all_seen ∪ {[product_hashable]}).

(** The [while rhs_node_index < len(self.members)] loop (lines 55-63).
    [self.members !! rhs_node_index] is [None] exactly when the loop
    condition is false.  The loop need not terminate, so it runs on
    fuel: [None] means the fuel ran out. *)
Fixpoint while_loop (fuel : nat) (gen_node_index : nat) (gen : G)
    (rhs_node_index : nat) (st : build) : option build :=
  match fuel with
  | 0 => None
  | S fuel' =>
      match members st.1 !! rhs_node_index with
      | None => Some st
      | Some rhs =>
          let product := func gen rhs in
          while_loop fuel' gen_node_index gen (S rhs_node_index)
            (add_product gen_node_index rhs_node_index product st)
      end
  end.

(** The second [for] loop (line 49), over
    [zip(self.generator_indices, self.generators)]. *)
Fixpoint for_loop (fuel : nat) (pairs : list (nat * G)) (st : build)
    : option build :=
  match pairs with
  | [] => Some st
  | (gen_node_index, gen) :: rest =>
      st' ← while_loop fuel gen_node_index gen 0 st;
      for_loop fuel rest st'
  end.

(** [SemigroupTree.__init__] *)
Definition init (fuel : nat) (gens : list G) : option (SemigroupTree G) :=
  match gens with
  | [] => Some (MkTree [] [] [] [])
  | _ =>
      let st := seed gens in
      st' ← for_loop fuel (zip (generator_indices st.1) (generators st.1)) st;
      Some st'.1
  end.

(** [SemigroupTree.compute_homomorphism]; [None] stands for the
    [IndexError] of an out-of-range [out[...]] or [self.generators[...]]. *)
Definition hom_step {H' : Type} (gens : list G)
    (get_generator : nat → G → H') (compose : H' → H' → H')
    (out : option (list H')) (d : decomp) : option (list H') :=
  out ← out;
  match d with
  | Binary a_index b_index =>
      a ← out !! a_index;
      b ← out !! b_index;
      Some (out ++ [compose a b])
  | Leaf gen_index =>
      g ← gens !! gen_index;
      Some (out ++ [get_generator gen_index g])
  end.

Definition compute_homomorphism {H' : Type} (t : SemigroupTree G)
    (get_generator : nat → G → H') (compose : H' → H' → H')
    : option (list H') :=
  foldl (hom_step (generators t) get_generator compose) (Some []) (decomps t).

(** The semigroup generated by [gens] under [func]. *)
Inductive closure (gens : list G) : G → Prop :=
  | closure_gen g : g ∈ gens → closure gens g
  | closure_op a b :
      closure gens a → closure gens b → closure gens (func a b).

(** [d] is a binary node. *)
Definition is_binary (d : decomp) : Prop :=
  match d with Binary _ _ => True | Leaf _ => False end.

(** [st'] is [st] with further members appended, each with a binary
    decomposition; the other fields are the same. *)
Definition extends (st st' : build) : Prop :=
  generators st'.1 = generators st.1 ∧
  generator_indices st'.1 = generator_indices st.1 ∧
  ∃ ms bs, members st'.1 = members st.1 ++ ms ∧
           decomps st'.1 = decomps st.1 ++ bs ∧
           Forall is_binary bs.

(** What holds of the object and of [all_seen] all along the construction
    from [gens]. *)
Record build_inv (gens : list G) (st : build) : Prop := BuildInv {
  inv_gens : generators st.1 = gens;
  inv_len : length (decomps st.1) = length (members st.1);
  inv_seen : ∀ k, k ∈ st.2 ↔ k ∈ make_hashable <$> members st.1;
  inv_nodup : NoDup (make_hashable <$> members st.1);
  inv_closure : ∀ m, m ∈ members st.1 → closure gens m;
  inv_indices : ∀ i, i ∈ generator_indices st.1 → i < length (members st.1);
  inv_binary : ∀ k a b,
    decomps st.1 !! k = Some (Binary a b) → a < k ∧ b < k;
  inv_leaf : ∀ k i, decomps st.1 !! k = Some (Leaf i) → i < length gens;
}.

(** Every binary node holds the product of the two members it names. *)
Definition binary_nodes_are_products (t : SemigroupTree G) : Prop :=
  ∀ k a b, decomps t !! k = Some (Binary a b) →
    ∃ x y, members t !! a = Some x ∧ members t !! b = Some y ∧
           members t !! k = Some (func x y).

(** Every binary node holds the product of the generator at its left
    index, read in the generator list, and of the member at its right
    index. *)
Definition binary_nodes_apply_generators (t : SemigroupTree G) : Prop :=
  ∀ k a b, decomps t !! k = Some (Binary a b) →
    ∃ g m, generators t !! a = Some g ∧ members t !! b = Some m ∧
           members t !! k = Some (func g m).

(** Position [i] of [gens] holds the first generator with its canonical
    form. *)
Definition first_occurrence (gens : list G) (i : nat) : Prop :=
  ∃ g, gens !! i = Some g ∧
       ∀ j g', j < i → gens !! j = Some g' → make_hashable g' ≠ make_hashable g.

End Init.

(** *** [run_once] *)

Section RunOnce.
Context {Args V : Type}.

(** The decorated function on its arguments; [None] when it raises. *)
Variable function : Args → option V.

(** The closure variable [value], [None] while it is [_NOT_YET_RUN],
    together with the arguments [function] has been called on so far. *)
Record run_once_state : Type := RunOnceState {
  value : option V;
  function_calls : list Args;
}.

Definition not_yet_run : run_once_state := RunOnceState None [].

(** One call of [wrapped]: the state afterwards and the value returned,
    [None] when the call raises. *)
Definition wrapped (st : run_once_state) (args : Args)
    : run_once_state * option V :=
  match value st with
  | None =>
      match function args with
      | Some v => (RunOnceState (Some v) (function_calls st ++ [args]), Some v)
      | None => (RunOnceState None (function_calls st ++ [args]), None)
      end
  | Some v => (st, Some v)
  end.

(** Calls of [wrapped] one after the other. *)
Fixpoint wrapped_calls (st : run_once_state) (calls : list Args)
    : run_once_state * list (option V) :=
  match calls with
  | [] => (st, [])
  | args :: calls' =>
      let '(st', r) := wrapped st args in
      let '(st'', rs) := wrapped_calls st' calls' in
      (st'', r :: rs)
  end.

End RunOnce.

End TestUtils.

Import TestUtils.

(** ** Concrete semigroups the construction is run on *)

(** Addition of integers modulo [n]. *)
Definition add_mod (n : Z) (x y : Z) : Z := ((x + y) mod n)%Z.

(** Maps of {0, 1, 2} into itself, given by the images of 0, 1 and 2;
    [compose3 a b] is [a] after [b]. *)
Definition map3 : Type := nat * nat * nat.

Definition apply3 (a : map3) (i : nat) : nat :=
  match i with
  | 0 => a.1.1
  | 1 => a.1.2
  | _ => a.2
  end.

Definition compose3 (a b : map3) : map3 :=
  (apply3 a b.1.1, apply3 a b.1.2, apply3 a b.2).

(** ** script/symmetry.py: the symmetry expansion engine *)

Module Symmetry.

(** Modelled from the spec: the failures of section 7 (structural
    mismatch, insufficient displacement data, symmetry coverage incomplete);
    the engine's own error type is in script/symmetry.py, which is missing. *)
Inductive error : Type :=
  | StructuralMismatch
  | InsufficientDisplacementData
  | SymmetryCoverageIncomplete.

(** A value, or one of the failures above. *)
Inductive result (A : Type) : Type :=
  | Ok (a : A)
  | Err (e : error).

Arguments Ok {A} _.
Arguments Err {A} _.

Definition result_bind {A B} (r : result A) (f : A → result B) : result B :=
  match r with
  | Ok a => f a
  | Err e => Err e
  end.

Fixpoint result_mapM {A B} (f : A → result B) (l : list A) : result (list B) :=
  match l with
  | [] => Ok []
  | x :: l' =>
      result_bind (f x) (λ y,
      result_bind (result_mapM f l') (λ ys, Ok (y :: ys)))
  end.

(** The first element of [l] on which [f] gives something. *)
Fixpoint first_some {A B} (f : A → option B) (l : list A) : option B :=
  match l with
  | [] => None
  | x :: l' =>
      match f x with
      | Some y => Some y
      | None => first_some f l'
      end
  end.

Section Expand.
(** Displacement vectors, response values, per-atom gradients (the three
    Cartesian components of the derivative) and rotation matrices. *)
Context {Cart V D Rot : Type}.

(** Modelled from the spec: the response-quantity callback contract of
    section 3, whose classes are in script/symmetry.py, which is missing;
    accumulating the samples of a site and solving for its gradient is
    [solve] (it fails on a structural mismatch or on insufficient
    displacement data), [rotate] re-expresses a gradient under an
    operation (its rotation for tensor axes, its permutation for atom
    axes), and [permute] relabels the atom axes of a gradient by a
    permutation alone, as tests/test_symmetry.py expects of a quotient
    match ([test_general_array_atom_quotient]). *)
Record callbacks : Type := Callbacks {
  solve : list (Cart * V) → result D;
  rotate : Rot → list nat → D → D;
  permute : list nat → D → D;
}.

(** Modelled from the spec: where the gradient of an atom comes from
    (step 3 of section 4.2): its own samples, a quotient permutation, or a
    full-group operation. *)
Inductive source : Type :=
  | Sampled
  | ByQuotient (perm : list nat) (representative : nat)
  | ByOperation (rot : Rot) (perm : list nat) (representative : nat).

(** Modelled from the spec: step 1 of section 4.2, the samples of one
    atom. *)
Definition samples_of (disp_atoms : list nat) (disp_carts : list Cart)
    (disp_values : list V) (atom : nat) : list (Cart * V) :=
  (λ s, (s.1.2, s.2)) <$>
    filter (λ s, s.1.1 = atom) (zip (zip disp_atoms disp_carts) disp_values).

(** Modelled from the spec: the first sampled atom that [perm] maps onto
    [atom]; by section 3 operations act on data indexed by atom as
    [new_value[perm[i]] = old_value[i]]. *)
Definition find_representative (disp_atoms : list nat) (perm : list nat)
    (atom : nat) : option nat :=
  first_some
    (λ i, if decide (perm !! i = Some atom) then Some i else None)
    disp_atoms.

(** Modelled from the spec: steps 3 and 4 of section 4.2.  A sampled atom
    is its own source; otherwise the quotient permutations are tried
    first, then the full operations, each in the order supplied, and the
    first match is kept. *)
Definition find_source (disp_atoms : list nat)
    (oper_cart_rots : list Rot) (oper_perms quotient_perms : list (list nat))
    (atom : nat) : option source :=
  if decide (atom ∈ disp_atoms) then Some Sampled
  else
    match first_some
            (λ q, ByQuotient q <$> find_representative disp_atoms q atom)
            quotient_perms with
    | Some s => Some s
    | None =>
        first_some
          (λ op, ByOperation op.1 op.2
                   <$> find_representative disp_atoms op.2 atom)
          (zip oper_cart_rots oper_perms)
    end.

(** Modelled from the spec: step 5 of section 4.2, an atom without a
    source is a failure. *)
Definition source_or_fail (disp_atoms : list nat)
    (oper_cart_rots : list Rot) (oper_perms quotient_perms : list (list nat))
    (atom : nat) : result source :=
  match find_source disp_atoms oper_cart_rots oper_perms quotient_perms atom with
  | Some s => Ok s
  | None => Err SymmetryCoverageIncomplete
  end.

(** Modelled from the spec: step 3 of section 4.2, a quotient match
    copies the representative's gradient without rotating it, a full-group
    match rotates it.  Section 3 has every operation act on data indexed
    by atom, and [test_general_array_atom_quotient] expects the copy of a
    quotient match with its atom axis relabelled: the copy goes through
    [permute]. *)
Definition gradient_from (cb : callbacks) (disp_atoms : list nat)
    (disp_carts : list Cart) (disp_values : list V)
    (atom_source : nat * source) : result D :=
  let gradient_at i := solve cb (samples_of disp_atoms disp_carts disp_values i) in
  match atom_source.2 with
  | Sampled => gradient_at atom_source.1
  | ByQuotient q i => result_bind (gradient_at i) (λ g, Ok (permute cb q g))
  | ByOperation rot perm i => result_bind (gradient_at i) (λ g, Ok (rotate cb rot perm g))
  end.

(** Modelled from the spec: [expand_derivs_by_symmetry] of
    script/symmetry.py, which is missing, after section 4.2 (steps 1 to
    6), in the order of the data flow of
    section 2: the operations that map a sampled atom onto each atom are
    determined first, then the gradient of every sampled atom is solved
    for, and finally the gradients are copied or rotated onto the other
    atoms.  The atoms of the structure are the positions of the
    permutations; an absent quotient group is the empty list. *)
Definition expand_derivs_by_symmetry (disp_atoms : list nat)
    (disp_carts : list Cart) (disp_values : list V) (cb : callbacks)
    (oper_cart_rots : list Rot) (oper_perms : list (list nat))
    (quotient_perms : option (list (list nat))) : result (list D) :=
  let natoms := default 0 (length <$> head oper_perms) in
  let quotient := default [] quotient_perms in
  let atoms := seq 0 natoms in
  result_bind
    (result_mapM (source_or_fail disp_atoms oper_cart_rots oper_perms quotient)
                 atoms) (λ sources,
  result_bind
    (result_mapM (λ i, solve cb (samples_of disp_atoms disp_carts disp_values i))
                 disp_atoms) (λ _,
  result_mapM (gradient_from cb disp_atoms disp_carts disp_values)
              (zip atoms sources))).

End Expand.

Arguments callbacks : clear implicits.

End Symmetry.

(** ** tests/test_symmetry.py *)

Module TestSymmetry.

Import Symmetry.

(** [compose_perm(a, b) = b[a]] on index arrays.  An index out of range
    raises in numpy; it reads 0 here, which does not happen on
    permutations of one length. *)
Definition compose_perm (a b : list nat) : list nat :=
  (λ i, default 0 (b !! i)) <$> a.


(** The namedtuple [Symmetry]. *)
Record Symmetry (Rot : Type) : Type := MkSymmetry {
  oper_cart_rots : list Rot;
  oper_perms : list (list nat);
  quotient_perms : option (list (list nat));
}.

Arguments MkSymmetry {Rot} _ _ _.
Arguments oper_cart_rots {Rot} _.
Arguments oper_perms {Rot} _.
Arguments quotient_perms {Rot} _.



(** The displacements of [test_pure_translation], in units of 0.1. *)
Definition pure_translation_disp_carts : list (Z * Z * Z) :=
  [(1, 0, 0); (-1, 0, 0); (0, 1, 0); (0, -1, 0); (0, 0, 1); (0, 0, -1);
   (1, 0, 0); (-1, 0, 0); (0, 1, 0); (0, -1, 0); (0, 0, 1); (0, 0, -1)]%Z.

(** The values of [test_pure_translation]. *)
Definition pure_translation_disp_values : list Z :=
  [1; -1; 2; -2; 3; -3; 4; -4; 5; -5; 6; -6]%Z.

(** Sum of [f] over the samples. *)
Definition sum_over (f : (Z * Z * Z) * Z → Z) (samples : list ((Z * Z * Z) * Z)) : Z :=
  foldr (λ s acc, f s + acc)%Z 0%Z samples.

(** Modelled from the spec: the least-squares solve of the plain-array
    callback variant ([GeneralArrayCallbacks] of script/symmetry.py, which
    is missing), in exact arithmetic and for scalar values on a minimal
    central-difference design only: displacements in units of 0.1 whose
    Gram matrix is twice the identity (one pair of opposite steps along
    each axis), for which the normal equations give the gradient as 5
    times the sum of displacement times value.  Any other design is
    refused. *)
Definition central_difference_solve (samples : list ((Z * Z * Z) * Z))
    : result (Z * Z * Z) :=
  let gram := (sum_over (λ s, s.1.1.1 * s.1.1.1) samples,
               sum_over (λ s, s.1.1.1 * s.1.1.2) samples,
               sum_over (λ s, s.1.1.1 * s.1.2) samples,
               sum_over (λ s, s.1.1.2 * s.1.1.2) samples,
               sum_over (λ s, s.1.1.2 * s.1.2) samples,
               sum_over (λ s, s.1.2 * s.1.2) samples)%Z in
  if decide (gram = (2, 0, 0, 2, 0, 2)%Z) then
    Ok (5 * sum_over (λ s, s.1.1.1 * s.2) samples,
        5 * sum_over (λ s, s.1.1.2 * s.2) samples,
        5 * sum_over (λ s, s.1.2 * s.2) samples)%Z
  else Err InsufficientDisplacementData.

(** Modelled from the spec: [GeneralArrayCallbacks([])], the plain-array
    variant without tensor or atom axes, so that no rotation and no
    permutation changes a gradient. *)
Definition scalar_callbacks : callbacks (Z * Z * Z) Z (Z * Z * Z) unit :=
  Callbacks central_difference_solve (λ _ _ g, g) (λ _ g, g).

(** [compose_rot(a, b) = a @ b] on integer matrices, given as the lists
    of their rows; [dot] and [column] spell the product out.  Shapes that
    do not fit raise in numpy; here missing entries read 0. *)
Definition dot (u v : list Z) : Z := foldr Z.add 0%Z (zip_with Z.mul u v).

Definition column (b : list (list Z)) (j : nat) : list Z :=
  (λ row, default 0%Z (row !! j)) <$> b.

Definition compose_rot (a b : list (list Z)) : list (list Z) :=
  (λ row, (λ j, dot row (column b j))
            <$> seq 0 (length (default [] (head b)))) <$> a.

(** [make_rot_hashable(a) = tuple(map(tuple, a.tolist()))] *)
Definition make_rot_hashable (a : list (list Z)) : list (list Z) := a.

(** [grouptree_rotation_xyz()]; the closure is run with fuel 4, enough
    for its three members. *)
Definition grouptree_rotation_xyz : SemigroupTree (list (list Z)) :=
  default (MkTree [] [] [] [])
    (init compose_rot make_rot_hashable 4
       [[[0; 0; 1]; [1; 0; 0]; [0; 1; 0]]]%Z).

(** [sym_xyz_3_atom()]: atoms at (1, 0, 0), (0, 1, 0) and (0, 0, 1). *)
Definition sym_xyz_3_atom : Symmetry (list (list Z)) :=
  let grouptree := grouptree_rotation_xyz in
  let generators := [[2; 0; 1]] in
  MkSymmetry (members grouptree)
    (default []
       (compute_homomorphism grouptree
          (λ gen_i _, default [] (generators !! gen_i)) compose_perm))
    None.


(** The data of [test_general_array_atom], displacements in units of
    0.1. *)
Definition general_array_atom_disp_atoms : list nat := [0; 0; 0; 0; 0; 0].

Definition general_array_atom_disp_carts : list (Z * Z * Z) :=
  [(1, 0, 0); (-1, 0, 0); (0, 1, 0); (0, -1, 0); (0, 0, 1); (0, 0, -1)]%Z.

Definition general_array_atom_disp_values : list (list Z) :=
  [[2; 3; 4]; [-2; -3; -4]; [5; 6; 7]; [-5; -6; -7];
   [8; 9; 10]; [-8; -9; -10]]%Z.


(** Modelled from the spec: the relabelling of an atom axis by a
    permutation, [new_value[perm[i]] = old_value[i]] (section 3). *)
Definition scatter (perm : list nat) (v : list Z) : list Z :=
  foldl (λ acc jx, <[jx.1 := jx.2]> acc) v (zip perm v).

(** Sum over the samples of the value arrays scaled by [f] of the
    displacement. *)
Definition weighted_sum (f : Z * Z * Z → Z)
    (samples : list ((Z * Z * Z) * list Z)) : list Z :=
  foldr (λ s acc, zip_with Z.add (Z.mul (f s.1) <$> s.2) acc)
        (replicate (length (default [] (head samples.*2))) 0%Z) samples.

(** Modelled from the spec: the least-squares solve of
    [GeneralArrayCallbacks(['atom'])] (script/symmetry.py, missing), in
    exact arithmetic and on a minimal central-difference design only, as
    [central_difference_solve] is for scalars; the value is an array over
    the atoms, the gradient its three Cartesian components.  Arrays of
    different lengths are a structural mismatch. *)
Definition atom_array_solve (samples : list ((Z * Z * Z) * list Z))
    : result (list (list Z)) :=
  let carts := (λ s, (s.1, 0%Z)) <$> samples in
  let gram := (sum_over (λ s, s.1.1.1 * s.1.1.1) carts,
               sum_over (λ s, s.1.1.1 * s.1.1.2) carts,
               sum_over (λ s, s.1.1.1 * s.1.2) carts,
               sum_over (λ s, s.1.1.2 * s.1.1.2) carts,
               sum_over (λ s, s.1.1.2 * s.1.2) carts,
               sum_over (λ s, s.1.2 * s.1.2) carts)%Z in
  if decide (Forall (λ v, length v = length (default [] (head samples.*2)))
                    samples.*2) then
    if decide (gram = (2, 0, 0, 2, 0, 2)%Z) then
      Ok [Z.mul 5 <$> weighted_sum (λ c, c.1.1) samples;
          Z.mul 5 <$> weighted_sum (λ c, c.1.2) samples;
          Z.mul 5 <$> weighted_sum (λ c, c.2) samples]
    else Err InsufficientDisplacementData
  else Err StructuralMismatch.

(** Modelled from the spec: [GeneralArrayCallbacks(['atom'])].  A
    permutation relabels the atom axis of each component; a rotation
    with its permutation also mixes the three components, component [i]
    of the result being the sum over [j] of [rot[j][i]] times the
    relabelled component [j], which is what the expected values of
    [test_general_array_atom] come to for an operation whose permutation
    sends the representative onto the atom. *)
Definition atom_array_callbacks
    : callbacks (Z * Z * Z) (list Z) (list (list Z)) (list (list Z)) :=
  Callbacks atom_array_solve
    (λ rot perm g,
       let relabelled := scatter perm <$> g in
       (λ i, foldr (zip_with Z.add)
                   (replicate (length (default [] (head relabelled))) 0%Z)
                   (zip_with (λ row component,
                                Z.mul (default 0%Z (row !! i)) <$> component)
                             rot relabelled))
         <$> seq 0 (length relabelled))
    (λ perm g, scatter perm <$> g).

End TestSymmetry.

(** ** script/__main__.py *)

Module Main.

(** The namedtuple [DispSplit]; its field [mod] is [modulus] here. *)
Record DispSplit : Type := MkDispSplit {
  index : Z;
  modulus : Z;
}.

(** [s.split(sep)] for a separator of one character. *)
Fixpoint split_on (sep : ascii) (s : string) : list string :=
  match s with
  | EmptyString => [EmptyString]
  | String c s' =>
      if decide (c = sep) then EmptyString :: split_on sep s'
      else
        match split_on sep s' with
        | part :: parts => String c part :: parts
        | [] => [String c EmptyString]
        end
  end.

(** How [parse_disp_split] can fail: a [ValueError] (of [int], or of
    unpacking other than two values) or the failed assertion. *)
Inductive parse_failure : Type :=
  | ParseValueError
  | ParseAssertionError.

(** [parse_disp_split]; Python's [int] on strings is a parameter, [None]
    where it raises [ValueError]. *)
Definition parse_disp_split (int : string → option Z) (s : string)
    : DispSplit + parse_failure :=
  match split_on "," s with
  | [idx; mod_] =>
      match int idx, int mod_ with
      | Some idx, Some mod_ =>
          if decide (0 ≤ idx < mod_)%Z then inl (MkDispSplit idx mod_)
          else inr ParseAssertionError
      | _, _ => inr ParseValueError
      end
  | _ => inr ParseValueError
  end.

(** The names [do_structure] is called with: ['eq'] and
    [f'sym-{disp_index}']. *)
Inductive structure_name : Type :=
  | structure_eq
  | structure_sym (disp_index : nat).

#[global] Instance structure_name_eq_dec : EqDecision structure_name.
Proof. solve_decision. Defined.

(** The number that decides which process takes a structure: 0 for the
    equilibrium, [disp_index + 1] for a displacement. *)
Definition job_number (name : structure_name) : Z :=
  match name with
  | structure_eq => 0
  | structure_sym disp_index => Z.of_nat disp_index + 1
  end.

(** The loop of [main__elph_phonopy] over the displaced structures (lines
    186-189): the structures this process computes, in order, and whether
    the loop came to its end ([false] for the [ZeroDivisionError] of
    [% disp_split.mod]). *)
Fixpoint displaced_jobs (disp_split : DispSplit) (disp_indices : list nat)
    : list structure_name * bool :=
  match disp_indices with
  | [] => ([], true)
  | disp_index :: rest =>
      if decide (modulus disp_split = 0)%Z then ([], false)
      else
        let '(names, finished) := displaced_jobs disp_split rest in
        (if decide (((Z.of_nat disp_index + 1) mod modulus disp_split)%Z
                    = index disp_split)
         then structure_sym disp_index :: names else names,
         finished)
  end.

(** Lines 183-189 of [main__elph_phonopy]: the structures a process with
    [disp_split] computes when there are [ndisp] displacements. *)
Definition structures_done (disp_split : DispSplit) (ndisp : nat)
    : list structure_name * bool :=
  let first :=
    if decide (index disp_split = 0)%Z then [structure_eq] else [] in
  let '(names, finished) := displaced_jobs disp_split (seq 0 ndisp) in
  (first ++ names, finished).

(** Position [i] of [a] holds at most what position [j] holds. *)
Definition index_le (a : list nat) (i j : nat) : Prop := a !!! i ≤ a !!! j.

#[global] Instance index_le_dec a i j : Decision (index_le a i j).
Proof. unfold index_le. apply _. Defined.

(** [np.argsort] of a one-dimensional array of indices: the positions in
    ascending order of their values.  Where a value occurs twice numpy's
    default sort leaves the order of its positions open. *)
Definition argsort (a : list nat) : list nat :=
  merge_sort (index_le a) (seq 0 (length a)).

(** [a[idx]] for an index array [idx]; [None] is the [IndexError] of an
    index out of range. *)
Definition take_indices {A} (a : list A) (idx : list nat) : option (list A) :=
  mapM (λ i, a !! i) idx.

(** [phonopy_sc_indices_to_ase_sc_indices]; the permutation comes from
    [interop.get_deperm_from_phonopy_sc_to_ase_sc], taken as a parameter. *)
Definition phonopy_sc_indices_to_ase_sc_indices
    (get_deperm_from_phonopy_sc_to_ase_sc : nat → nat * nat * nat → list nat)
    (phonopy_disp_atoms : list nat) (natoms : nat) (supercell : nat * nat * nat)
    : option (list nat) :=
  let deperm_phonopy_to_ase :=
    get_deperm_from_phonopy_sc_to_ase_sc natoms supercell in
  let inv_deperm_phonopy_to_ase := argsort deperm_phonopy_to_ase in
  take_indices inv_deperm_phonopy_to_ase phonopy_disp_atoms.

(** One element of [oper_deperms] in [main__elph_phonopy] (line 215):
    [np.argsort(deperm_phonopy_to_ase)[deperm][deperm_phonopy_to_ase]]. *)
Definition oper_deperm (deperm_phonopy_to_ase deperm : list nat)
    : option (list nat) :=
  into_phonopy ← take_indices (argsort deperm_phonopy_to_ase) deperm;
  take_indices into_phonopy deperm_phonopy_to_ase.

(** What [get_phonopy_displacements] returns: the empty tuple, or a tuple
    of the list of atoms and the list of displacement vectors. *)
Inductive displacements (V : Type) : Type :=
  | EmptyTuple
  | AtomsAndCarts (atoms : list V) (carts : list (list V)).

Arguments EmptyTuple {V}.
Arguments AtomsAndCarts {V} _ _.

(** [get_phonopy_displacements] on the rows of [phonon.get_displacements()];
    [None] is the [ValueError] of unpacking an empty row as [(i, *xyz)]. *)
Definition get_phonopy_displacements {V} (rows : list (list V))
    : option (displacements V) :=
  pairs ← mapM (λ row, match row with
                        | [] => None
                        | i :: xyz => Some (i, xyz)
                        end) rows;
  match pairs with
  | [] => Some EmptyTuple
  | _ => Some (AtomsAndCarts pairs.*1 pairs.*2)
  end.

(** How [iter_displaced_structures] can end. *)
Inductive iteration_end : Type :=
  | Exhausted
  | AssertionError
  | IndexError.

Section Displaced.
(** Positions and displacement vectors, with the addition of a vector to
    a position ([positions[i] += disp]). *)
Context {P D : Type} (add : P → D → P).

(** The structures yielded for the pairs of [zip(disp_sites, disp_carts)],
    each from a fresh copy of the equilibrium positions, up to the first
    site out of range. *)
Fixpoint displaced_from (eq_positions : list P) (disps : list (nat * D))
    : list (list P) * iteration_end :=
  match disps with
  | [] => ([], Exhausted)
  | (i, disp) :: rest =>
      match eq_positions !! i with
      | None => ([], IndexError)
      | Some p =>
          let '(yielded, e) := displaced_from eq_positions rest in
          (<[i := add p disp]> eq_positions :: yielded, e)
      end
  end.

(** [iter_displaced_structures], on the positions of [atoms]: the
    structures it yields and how the iteration ends. *)
Definition iter_displaced_structures (positions : list P)
    (disp_sites : list nat) (disp_carts : list D)
    : list (list P) * iteration_end :=
  let eq_positions := positions in
  if decide (length disp_sites = length disp_carts)
  then displaced_from eq_positions (zip disp_sites disp_carts)
  else ([], AssertionError).

End Displaced.

(** ['xyz'.index(c)] for a string [c] of one character; [None] is its
    [ValueError]. *)
Definition xyz_index (c : ascii) : option nat :=
  if decide (c = "x"%char) then Some 0
  else if decide (c = "y"%char) then Some 1
  else if decide (c = "z"%char) then Some 2
  else None.

(** Lines 290-293 of [main__elph_phonopy]: the indices [d_i] and [d_o] of
    a polarization; [None] is the [ValueError] raised for a length other
    than two or by [index].  A string is its bytes: a character outside
    ASCII takes several and is refused here as it is there. *)
Definition polarization_indices (polarization : string) : option (nat * nat) :=
  match polarization with
  | String c0 (String c1 EmptyString) =>
      d_i ← xyz_index c0;
      d_o ← xyz_index c1;
      Some (d_i, d_o)
  | _ => None
  end.

(** The default of [--polarizations]:
    [[i+o for i in 'xyz' for o in 'xyz']]. *)
Definition default_polarizations : list string :=
  i ← ["x"; "y"; "z"]%string; o ← ["x"; "y"; "z"]%string; [(i +:+ o)%string].

End Main.

Section InitProofs.
Context {G K : Type} `{Countable K}.
Variable func : G → G → G.
Variable make_hashable : G → K.

Local Abbreviation build := (@TestUtils.build G K _ _).
Local Abbreviation seed_step := (TestUtils.seed_step make_hashable).
Local Abbreviation seed := (TestUtils.seed make_hashable).
Local Abbreviation add_product := (TestUtils.add_product make_hashable).
Local Abbreviation while_loop := (TestUtils.while_loop func make_hashable).
Local Abbreviation for_loop := (TestUtils.for_loop func make_hashable).
Local Abbreviation init := (TestUtils.init func make_hashable).
Local Abbreviation closure := (TestUtils.closure func).
Local Abbreviation build_inv := (TestUtils.build_inv func make_hashable).
Local Abbreviation first_occurrence := (TestUtils.first_occurrence make_hashable).
Local Abbreviation binary_nodes_are_products :=
  (TestUtils.binary_nodes_are_products func).

Lemma extends_refl (st : build) : extends st st.
Proof.
  repeat split. exists [], []. by rewrite !app_nil_r.
Qed.

Lemma extends_trans (st1 st2 st3 : build) :
  extends st1 st2 → extends st2 st3 → extends st1 st3.
Proof.
  intros (Hg1 & Hi1 & ms1 & bs1 & Hm1 & Hd1 & Hb1)
         (Hg2 & Hi2 & ms2 & bs2 & Hm2 & Hd2 & Hb2).
  split; [congruence|]. split; [congruence|].
  exists (ms1 ++ ms2), (bs1 ++ bs2).
  rewrite Hm2, Hm1, Hd2, Hd1, !app_assoc.
  split_and!; [done..|]. by apply Forall_app.
Qed.

Lemma add_product_extends gi rhs p (st : build) :
  extends st (add_product gi rhs p st).
Proof.
  destruct st as [t seen]. unfold TestUtils.add_product.
  case_decide; [apply extends_refl|].
  repeat split. exists [p], [Binary gi rhs]. simpl.
  split_and!; [done..|]. by constructor.
Qed.

Lemma add_product_inv gens gi rhs gen m (st : build) :
  build_inv gens st →
  closure gens gen →
  members st.1 !! rhs = Some m →
  gi < length (members st.1) →
  build_inv gens (add_product gi rhs (func gen m) st).
Proof.
  intros [Hg Hl Hs Hn Hc Hi Hb Hf] Hgen Hm Hgi.
  destruct st as [t seen]. unfold TestUtils.add_product. simpl in *.
  case_decide as Hin; [by constructor|].
  constructor; simpl.
  - done.
  - rewrite !length_app. simpl. lia.
  - intros k. rewrite fmap_app, elem_of_app, elem_of_union, Hs. simpl.
    rewrite elem_of_singleton, list_elem_of_singleton. done.
  - rewrite fmap_app. apply NoDup_app. split_and!.
    + done.
    + intros k Hk Hk'. simpl in Hk'. apply list_elem_of_singleton in Hk'.
      subst k. apply Hin, Hs, Hk.
    + simpl. apply NoDup_singleton.
  - intros m' [Hm'|Hm']%elem_of_app; [by apply Hc|].
    apply list_elem_of_singleton in Hm'. subst m'.
    apply closure_op; [done|]. apply Hc. by eapply list_elem_of_lookup_2.
  - intros i Hi'. rewrite length_app. specialize (Hi i Hi'). lia.
  - intros k a b Hk.
    apply lookup_app_Some in Hk as [Hk|[Hle Hk]]; [by eapply Hb|].
    apply list_lookup_singleton_Some in Hk as [Hk0 Heq].
    injection Heq as <- <-.
    apply lookup_lt_Some in Hm. lia.
  - intros k i Hk.
    apply lookup_app_Some in Hk as [Hk|[Hle Hk]]; [by eapply Hf|].
    by apply list_lookup_singleton_Some in Hk as [_ ?].
Qed.

Lemma extends_length (st st' : build) :
  extends st st' → length (members st.1) ≤ length (members st'.1).
Proof.
  intros (_ & _ & ms & bs & -> & _ & _). rewrite length_app. lia.
Qed.

(** One run of the [while] loop keeps the invariant and only appends
    binary nodes. *)
Lemma while_loop_inv gens fuel gi gen : ∀ rhs (st st' : build),
  while_loop fuel gi gen rhs st = Some st' →
  build_inv gens st →
  closure gens gen →
  gi < length (members st.1) →
  build_inv gens st' ∧ extends st st'.
Proof.
  induction fuel as [|fuel IH]; intros rhs st st' Hrun Hinv Hgen Hgi;
    [discriminate|].
  simpl in Hrun. destruct (members st.1 !! rhs) as [m|] eqn:Hm.
  - pose proof (add_product_extends gi rhs (func gen m) st) as Hext.
    apply IH in Hrun as [Hinv' Hext'].
    + split; [done|]. by eapply extends_trans.
    + by apply add_product_inv.
    + done.
    + apply extends_length in Hext. lia.
  - injection Hrun as <-. split; [done|apply extends_refl].
Qed.

Lemma for_loop_inv gens fuel : ∀ pairs (st st' : build),
  for_loop fuel pairs st = Some st' →
  build_inv gens st →
  Forall (λ p, p.1 < length (members st.1) ∧ closure gens p.2) pairs →
  build_inv gens st' ∧ extends st st'.
Proof.
  induction pairs as [|[gi gen] rest IH]; intros st st' Hrun Hinv Hall.
  - injection Hrun as <-. split; [done|apply extends_refl].
  - simpl in Hrun.
    destruct (while_loop fuel gi gen 0 st) as [st1|] eqn:Hw; [|discriminate].
    simpl in Hrun. apply Forall_cons in Hall as [[Hgi Hgen] Hall].
    simpl in Hgi, Hgen.
    destruct (while_loop_inv gens fuel gi gen 0 st st1 Hw Hinv Hgen Hgi)
      as [Hinv1 Hext1].
    apply IH in Hrun as [Hinv' Hext']; [|done|].
    + split; [done|]. by eapply extends_trans.
    + eapply Forall_impl; [exact Hall|]. intros [i g] [Hi Hg]. simpl in *.
      split; [|done]. apply extends_length in Hext1. lia.
Qed.

(** The member list is never longer than a set that holds the canonical
    forms of the whole closure. *)
Lemma members_bound gens (U : gset K) (st : build) :
  build_inv gens st →
  (∀ x, closure gens x → make_hashable x ∈ U) →
  length (members st.1) ≤ size U.
Proof.
  intros Hinv HU.
  rewrite <-(length_fmap make_hashable).
  rewrite <-(size_list_to_set (C:=gset K)) by apply Hinv.
  apply subseteq_size. intros k Hk. apply elem_of_list_to_set in Hk.
  apply list_elem_of_fmap in Hk as (m & -> & Hm).
  apply HU. by eapply inv_closure.
Qed.

Lemma while_loop_terminates gens (U : gset K) gi gen :
  (∀ x, closure gens x → make_hashable x ∈ U) →
  closure gens gen →
  ∀ fuel rhs (st : build),
    build_inv gens st →
    gi < length (members st.1) →
    rhs ≤ length (members st.1) →
    size U + 1 ≤ fuel + rhs →
    is_Some (while_loop fuel gi gen rhs st).
Proof.
  intros HU Hgen. induction fuel as [|fuel IH]; intros rhs st Hinv Hgi Hrhs Hfuel.
  - pose proof (members_bound gens U st Hinv HU). lia.
  - simpl. destruct (members st.1 !! rhs) as [m|] eqn:Hm; [|by eexists].
    pose proof (add_product_extends gi rhs (func gen m) st) as Hext.
    apply extends_length in Hext. apply lookup_lt_Some in Hm as Hlt.
    apply IH; [by apply add_product_inv|lia..].
Qed.

Lemma for_loop_terminates gens (U : gset K) fuel :
  (∀ x, closure gens x → make_hashable x ∈ U) →
  size U + 1 ≤ fuel →
  ∀ pairs (st : build),
    build_inv gens st →
    Forall (λ p, p.1 < length (members st.1) ∧ closure gens p.2) pairs →
    is_Some (for_loop fuel pairs st).
Proof.
  intros HU Hfuel. induction pairs as [|[gi gen] rest IH]; intros st Hinv Hall.
  - by eexists.
  - apply Forall_cons in Hall as [[Hgi Hgen] Hall]. simpl in Hgi, Hgen.
    destruct (while_loop_terminates gens U gi gen HU Hgen fuel 0 st)
      as [st1 Hw]; [done|done|lia|lia|].
    simpl. rewrite Hw. simpl.
    destruct (while_loop_inv gens fuel gi gen 0 st st1 Hw Hinv Hgen Hgi)
      as [Hinv1 Hext1].
    apply IH; [done|].
    eapply Forall_impl; [exact Hall|]. intros [i g] [Hi Hg]. simpl in *.
    split; [|done]. apply extends_length in Hext1. lia.
Qed.

Lemma enumerate_snoc {A} (l : list A) (x : A) :
  enumerate (l ++ [x]) = enumerate l ++ [(length l, x)].
Proof.
  unfold enumerate. rewrite imap_app. simpl. by rewrite Nat.add_0_r.
Qed.

Lemma first_occurrence_lt gens i : first_occurrence gens i → i < length gens.
Proof. intros (g & Hg & _). by eapply lookup_lt_Some. Qed.

Lemma first_occurrence_snoc_old p x i :
  i < length p → first_occurrence (p ++ [x]) i ↔ first_occurrence p i.
Proof.
  intros Hi. split; intros (g & Hg & Hfirst); exists g.
  - rewrite lookup_app_l in Hg by done. split; [done|].
    intros j g' Hj Hg'. apply (Hfirst j g' Hj). by apply lookup_app_l_Some.
  - split; [by apply lookup_app_l_Some|].
    intros j g' Hj Hg'. apply (Hfirst j g' Hj).
    rewrite lookup_app_l in Hg' by lia. done.
Qed.

Lemma first_occurrence_snoc_new p x :
  first_occurrence (p ++ [x]) (length p) ↔
  make_hashable x ∉ make_hashable <$> p.
Proof.
  split.
  - intros (g & Hg & Hfirst) Hin.
    rewrite list_lookup_middle in Hg by done. injection Hg as <-.
    apply list_elem_of_fmap in Hin as (g' & Heq & Hin).
    apply list_elem_of_lookup in Hin as [j Hj].
    apply (Hfirst j g'); [by eapply lookup_lt_Some|by apply lookup_app_l_Some|done].
  - intros Hnin. exists x. split; [by apply list_lookup_middle|].
    intros j g' Hj Hg' Heq. apply Hnin. rewrite <-Heq.
    apply list_elem_of_fmap. exists g'. split; [done|].
    rewrite lookup_app_l in Hg' by done. by eapply list_elem_of_lookup_2.
Qed.

(** The state after the first loop has gone through the prefix [p] of
    the generators [gens0]: the members are the first occurrences in [p],
    in order, each with its leaf. *)
Lemma seed_prefix gens0 : ∀ p rest, gens0 = p ++ rest →
  let st : build :=
    foldl seed_step (MkTree gens0 [] [] [], ∅) (enumerate p) in
  build_inv gens0 st ∧
  generator_indices st.1 = seq 0 (length (members st.1)) ∧
  (∀ k d, decomps st.1 !! k = Some d →
     ∃ i m, d = Leaf i ∧ members st.1 !! k = Some m ∧
            p !! i = Some m ∧ first_occurrence p i) ∧
  (∀ i, first_occurrence p i → Leaf i ∈ decomps st.1) ∧
  (∀ g, g ∈ p → make_hashable g ∈ st.2).
Proof.
  induction p as [|x p IH] using rev_ind; intros rest Hgens.
  - simpl. split_and!.
    + constructor; simpl; try done.
      * intros k. set_solver.
      * constructor.
      * intros m Hm. by apply elem_of_nil in Hm.
      * intros i Hi. by apply elem_of_nil in Hi.
    + done.
    + intros k d Hk. done.
    + intros i Hi. apply first_occurrence_lt in Hi. simpl in Hi. lia.
    + intros g Hg. by apply elem_of_nil in Hg.
  - rewrite enumerate_snoc, foldl_snoc.
    destruct (IH ([x] ++ rest)) as (Hinv & Hidx & Hleaf & Hfirst & Hseen);
      [by rewrite Hgens, <-app_assoc|].
    destruct (foldl seed_step (MkTree gens0 [] [] [], ∅) (enumerate p))
      as [t seen] eqn:Hst.
    pose proof Hinv as Hinv0.
    destruct Hinv as [Hg Hl Hs Hn Hc Hi Hb Hf]. simpl in *.
    assert (Hsub : ∀ k, k ∈ seen → k ∈ make_hashable <$> p).
    { intros k Hk. apply Hs in Hk.
      apply list_elem_of_fmap in Hk as (m & -> & Hm).
      apply list_elem_of_lookup in Hm as [j Hj].
      assert (is_Some (decomps t !! j)) as [d Hd].
      { apply lookup_lt_is_Some. rewrite Hl. by eapply lookup_lt_Some. }
      destruct (Hleaf j d Hd) as (i & m' & -> & Hm' & Hp & _).
      rewrite Hj in Hm'. injection Hm' as <-.
      apply list_elem_of_fmap. exists m. split; [done|].
      by eapply list_elem_of_lookup_2. }
    unfold TestUtils.seed_step. case_decide as Hin; simpl.
    + split_and!; [done|done|..].
      * intros k d Hk. destruct (Hleaf k d Hk) as (i & m & -> & Hm & Hp & Hfo).
        exists i, m. split_and!; [done|done|by apply lookup_app_l_Some|].
        apply first_occurrence_snoc_old; [by eapply lookup_lt_Some|done].
      * intros i Hi'. pose proof (first_occurrence_lt _ _ Hi') as Hlt.
        rewrite length_app in Hlt. simpl in Hlt.
        destruct (decide (i = length p)) as [->|Hne].
        -- apply first_occurrence_snoc_new in Hi'. exfalso. by apply Hi', Hsub.
        -- apply Hfirst. apply first_occurrence_snoc_old in Hi'; [done|lia].
      * intros g [Hg'|Hg']%elem_of_app; [by apply Hseen|].
        apply list_elem_of_singleton in Hg'. by subst g.
    + assert (Hnew : make_hashable x ∉ make_hashable <$> p).
      { intros Hx. apply list_elem_of_fmap in Hx as (g & Heq & Hg').
        apply Hin. rewrite Heq. by apply Hseen. }
      split_and!.
      * constructor; simpl.
        -- done.
        -- rewrite !length_app. simpl. lia.
        -- intros k. rewrite fmap_app, elem_of_app, elem_of_union, Hs. simpl.
           by rewrite elem_of_singleton, list_elem_of_singleton.
        -- rewrite fmap_app. apply NoDup_app. split_and!; [done| |apply NoDup_singleton].
           intros k Hk Hk'. simpl in Hk'. apply list_elem_of_singleton in Hk'.
           subst k. apply Hin, Hs, Hk.
        -- intros m [Hm|Hm]%elem_of_app; [by apply Hc|].
           apply list_elem_of_singleton in Hm. subst m. apply closure_gen.
           rewrite Hgens. apply elem_of_app. left. apply elem_of_app. right.
           by apply list_elem_of_singleton.
        -- intros i [Hi'|Hi']%elem_of_app; rewrite length_app; simpl.
           ++ specialize (Hi i Hi'). lia.
           ++ apply list_elem_of_singleton in Hi'. lia.
        -- intros k a b Hk.
           apply lookup_app_Some in Hk as [Hk|[Hle Hk]]; [by eapply Hb|].
           by apply list_lookup_singleton_Some in Hk as [_ ?].
        -- intros k i Hk.
           apply lookup_app_Some in Hk as [Hk|[Hle Hk]]; [by eapply Hf|].
           apply list_lookup_singleton_Some in Hk as [_ Heq].
           injection Heq as <-. rewrite Hgens, !length_app. simpl. lia.
      * rewrite length_app, Hidx. simpl. rewrite seq_app. simpl. done.
      * intros k d Hk.
        apply lookup_app_Some in Hk as [Hk|[Hle Hk]].
        -- destruct (Hleaf k d Hk) as (i & m & -> & Hm & Hp & Hfo).
           exists i, m. split_and!; [done|by apply lookup_app_l_Some
                                    |by apply lookup_app_l_Some|].
           apply first_occurrence_snoc_old; [by eapply lookup_lt_Some|done].
        -- apply list_lookup_singleton_Some in Hk as [Hk <-].
           exists (length p), x. split_and!; [done|..].
           ++ apply list_lookup_middle. lia.
           ++ by apply list_lookup_middle.
           ++ by apply first_occurrence_snoc_new.
      * intros i Hi'. pose proof (first_occurrence_lt _ _ Hi') as Hlt.
        rewrite length_app in Hlt. simpl in Hlt. apply elem_of_app.
        destruct (decide (i = length p)) as [->|Hne].
        -- right. by apply list_elem_of_singleton.
        -- left. apply Hfirst. apply first_occurrence_snoc_old in Hi'; [done|lia].
      * intros g [Hg'|Hg']%elem_of_app; apply elem_of_union.
        -- left. by apply Hseen.
        -- right. apply list_elem_of_singleton in Hg'. subst g.
           by apply elem_of_singleton.
Qed.

Lemma seed_facts gens :
  let st : build := seed gens in
  build_inv gens st ∧
  generator_indices st.1 = seq 0 (length (members st.1)) ∧
  (∀ k d, decomps st.1 !! k = Some d →
     ∃ i m, d = Leaf i ∧ members st.1 !! k = Some m ∧
            gens !! i = Some m ∧ first_occurrence gens i) ∧
  (∀ i, first_occurrence gens i → Leaf i ∈ decomps st.1) ∧
  (∀ g, g ∈ gens → make_hashable g ∈ st.2).
Proof. apply (seed_prefix gens gens []). by rewrite app_nil_r. Qed.

Lemma seed_pairs gens :
  let st : build := seed gens in
  Forall (λ p, p.1 < length (members st.1) ∧ closure gens p.2)
         (zip (generator_indices st.1) (generators st.1)).
Proof.
  destruct (seed_facts gens) as (Hinv & _). simpl.
  apply Forall_forall. intros [i g] Hig. simpl. split.
  - apply elem_of_zip_l in Hig. by apply (inv_indices _ _ _ _ Hinv).
  - apply elem_of_zip_r in Hig. rewrite (inv_gens _ _ _ _ Hinv) in Hig.
    by apply closure_gen.
Qed.

(** A finished construction is the seeded state extended by the second
    loop. *)
Lemma init_run gens fuel t :
  init fuel gens = Some t →
  ∃ st : build, st.1 = t ∧ build_inv gens st ∧ extends (seed gens) st.
Proof.
  intros Hinit.
  assert (∃ st : build,
    for_loop fuel (zip (generator_indices (seed gens).1)
                       (generators (seed gens).1)) (seed gens) = Some st
    ∧ st.1 = t) as (st & Hrun & Ht).
  { destruct gens as [|g gens].
    - injection Hinit as <-. by eexists.
    - unfold TestUtils.init in Hinit.
      destruct (for_loop _ _ _) as [st|] eqn:Hrun; [|discriminate].
      injection Hinit as <-. by exists st. }
  exists st. split; [done|].
  destruct (seed_facts gens) as (Hinv & _).
  by apply (for_loop_inv gens fuel _ _ _ Hrun Hinv (seed_pairs gens)).
Qed.

Lemma init_enough_fuel gens (U : gset K) fuel :
  (∀ x, closure gens x → make_hashable x ∈ U) →
  size U < fuel →
  is_Some (init fuel gens).
Proof.
  intros HU Hfuel. destruct gens as [|g gens]; [by eexists|].
  destruct (seed_facts (g :: gens)) as (Hinv & _).
  destruct (for_loop_terminates (g :: gens) U fuel HU ltac:(lia) _ _ Hinv
              (seed_pairs (g :: gens))) as [st Hst].
  unfold TestUtils.init. rewrite Hst. by eexists.
Qed.

(** Replaying decompositions that only point backwards never indexes out
    of range. *)
Lemma replay_in_bounds {H'} (gens : list G) (get_generator : nat → G → H')
    (compose : H' → H' → H') : ∀ ds,
  (∀ k a b, ds !! k = Some (Binary a b) → a < k ∧ b < k) →
  (∀ k i, ds !! k = Some (Leaf i) → i < length gens) →
  ∃ out, foldl (hom_step gens get_generator compose) (Some []) ds = Some out
         ∧ length out = length ds.
Proof.
  induction ds as [|d ds IH] using rev_ind; intros Hb Hf; [by exists []|].
  destruct IH as (out & Hout & Hlen).
  { intros k a b Hk. apply (Hb k). by apply lookup_app_l_Some. }
  { intros k i Hk. apply (Hf k). by apply lookup_app_l_Some. }
  rewrite foldl_snoc, Hout. simpl. destruct d as [i|a b].
  - destruct (lookup_lt_is_Some_2 gens i) as [g Hg].
    { apply (Hf (length ds)). by apply list_lookup_middle. }
    rewrite Hg. simpl. eexists. split; [done|].
    rewrite !length_app. simpl. lia.
  - destruct (Hb (length ds) a b) as [Ha Hb']; [by apply list_lookup_middle|].
    destruct (lookup_lt_is_Some_2 out a) as [x Hx]; [lia|].
    destruct (lookup_lt_is_Some_2 out b) as [y Hy]; [lia|].
    rewrite Hx, Hy. simpl. eexists. split; [done|].
    rewrite !length_app. simpl. lia.
Qed.

(** The leaves of a finished construction are those of the seeded
    state. *)
Lemma init_leaves gens fuel t :
  init fuel gens = Some t →
  (∀ k i, decomps t !! k = Some (Leaf i) →
     first_occurrence gens i ∧ is_Some (gens !! i) ∧
     members t !! k = gens !! i) ∧
  (∀ i, first_occurrence gens i → Leaf i ∈ decomps t) ∧
  (∀ g, g ∈ gens →
     ∃ k i g', decomps t !! k = Some (Leaf i) ∧ gens !! i = Some g' ∧
               make_hashable g' = make_hashable g) ∧
  NoDup (make_hashable <$> members t).
Proof.
  intros Hinit. destruct (init_run gens fuel t Hinit) as (st & <- & Hinv & Hext).
  destruct (seed_facts gens) as (Hinv0 & _ & Hleaf & Hfirst & Hseen).
  destruct Hext as (_ & _ & ms & bs & Hms & Hbs & Hbin).
  split_and!.
  - intros k i Hk. rewrite Hbs in Hk.
    apply lookup_app_Some in Hk as [Hk|[_ Hk]].
    + destruct (Hleaf k _ Hk) as (i' & m & Heq & Hm & Hg & Hfo).
      injection Heq as <-. rewrite Hms, Hg.
      split_and!; [done|by eexists|by apply lookup_app_l_Some].
    + eapply Forall_lookup_1 in Hbin; [|exact Hk]. done.
  - intros i Hi. rewrite Hbs. apply elem_of_app. left. by apply Hfirst.
  - intros g Hg. apply Hseen, (inv_seen _ _ _ _ Hinv0) in Hg.
    apply list_elem_of_fmap in Hg as (m & Heq & Hm).
    apply list_elem_of_lookup in Hm as [k Hk].
    destruct (lookup_lt_is_Some_2 (decomps (seed gens).1) k) as [d Hd].
    { rewrite (inv_len _ _ _ _ Hinv0). by eapply lookup_lt_Some. }
    destruct (Hleaf k d Hd) as (i & m' & -> & Hm' & Hg' & _).
    rewrite Hk in Hm'. injection Hm' as <-.
    exists k, i, m. split_and!; [|done..].
    rewrite Hbs. by apply lookup_app_l_Some.
  - apply Hinv.
Qed.

(** C9: for the empty generator sequence, whatever the operation and the
    canonicalization function, the construction returns at once with an
    empty closure: the members list, the decomps list and the
    generator_indices list are all empty. *)
Theorem empty_generators_empty_closure (fuel : nat) :
  init fuel [] = Some (MkTree [] [] [] []).
Proof. reflexivity. Qed.

(** C10: the canonical forms of the elements of the resulting members
    list are pairwise distinct, so no element is stored twice. *)
Theorem members_canonical_forms_distinct gens fuel t :
  init fuel gens = Some t →
  NoDup (make_hashable <$> members t).
Proof.
  intros Hinit. destruct (init_run gens fuel t Hinit) as (st & <- & Hinv & _).
  apply Hinv.
Qed.

(** C6: in a constructed tree every binary decomposition (left, right)
    stored at position k has left < k and right < k, and therefore
    compute_homomorphism, which goes through decomps in stored order,
    never indexes its partial output (or the generators) out of range:
    it returns one image per node. *)
Theorem decomps_reference_earlier gens fuel t :
  init fuel gens = Some t →
  (∀ k a b, decomps t !! k = Some (Binary a b) → a < k ∧ b < k) ∧
  (∀ H' (get_generator : nat → G → H') (compose : H' → H' → H'),
     ∃ out, compute_homomorphism t get_generator compose = Some out
            ∧ length out = length (decomps t)).
Proof.
  intros Hinit. destruct (init_run gens fuel t Hinit) as (st & <- & Hinv & _).
  split; [apply Hinv|].
  intros H' get_generator compose. unfold compute_homomorphism.
  apply replay_in_bounds; [apply Hinv|].
  rewrite (inv_gens _ _ _ _ Hinv). apply Hinv.
Qed.

(** C7: when the closure of the generators under the operation has
    finitely many canonical forms (all of them in the finite set U), the
    construction terminates: any fuel above the size of U is enough for
    every run of the inner loop, because each appended member has a
    canonical form not seen before and so the members list never grows
    beyond the size of U. *)
Theorem init_terminates gens (U : gset K) fuel :
  (∀ x, closure gens x → make_hashable x ∈ U) →
  size U < fuel →
  ∃ t, init fuel gens = Some t ∧ length (members t) ≤ size U.
Proof.
  intros HU Hfuel. destruct (init_enough_fuel gens U fuel HU Hfuel) as [t Ht].
  exists t. split; [done|].
  destruct (init_run gens fuel t Ht) as (st & <- & Hinv & _).
  by eapply members_bound.
Qed.

(** C8 (amended): for every generator list whose closure has finitely
    many canonical forms, the construction completes, and duplicates
    contribute no leaf: every leaf is tagged with the index of the first
    occurrence of a canonical form and holds that generator, every first
    occurrence has a leaf, no two leaves carry the same canonical form,
    every generator's canonical form has a leaf, and the index of a
    generator that collides with an earlier one appears in no leaf. *)
Theorem redundant_generators_skipped gens (U : gset K) fuel :
  (∀ x, closure gens x → make_hashable x ∈ U) →
  size U < fuel →
  ∃ t, init fuel gens = Some t ∧
    (∀ k i, decomps t !! k = Some (Leaf i) →
       first_occurrence gens i ∧ is_Some (gens !! i) ∧
       members t !! k = gens !! i) ∧
    (∀ i, first_occurrence gens i → Leaf i ∈ decomps t) ∧
    (∀ k1 k2 i1 i2 g1 g2,
       decomps t !! k1 = Some (Leaf i1) → decomps t !! k2 = Some (Leaf i2) →
       gens !! i1 = Some g1 → gens !! i2 = Some g2 →
       make_hashable g1 = make_hashable g2 → k1 = k2) ∧
    (∀ g, g ∈ gens →
       ∃ k i g', decomps t !! k = Some (Leaf i) ∧ gens !! i = Some g' ∧
                 make_hashable g' = make_hashable g) ∧
    (∀ i j g g', i < j → gens !! i = Some g → gens !! j = Some g' →
       make_hashable g = make_hashable g' → Leaf j ∉ decomps t).
Proof.
  intros HU Hfuel. destruct (init_enough_fuel gens U fuel HU Hfuel) as [t Ht].
  exists t. split; [done|].
  destruct (init_leaves gens fuel t Ht) as (Hleaf & Hfirst & Hcover & Hnodup).
  split_and!; [done|done| |done|].
  - intros k1 k2 i1 i2 g1 g2 Hk1 Hk2 Hg1 Hg2 Heq.
    destruct (Hleaf k1 i1 Hk1) as (_ & _ & Hm1).
    destruct (Hleaf k2 i2 Hk2) as (_ & _ & Hm2).
    rewrite Hg1 in Hm1. rewrite Hg2 in Hm2.
    eapply NoDup_lookup; [exact Hnodup|..].
    + rewrite list_lookup_fmap, Hm1. done.
    + rewrite list_lookup_fmap, Hm2. simpl. by rewrite Heq.
  - intros i j g g' Hij Hi Hj Heq Hin.
    apply list_elem_of_lookup in Hin as [k Hk].
    destruct (Hleaf k j Hk) as ((g'' & Hg'' & Hfo) & _).
    rewrite Hj in Hg''. injection Hg'' as <-.
    by apply (Hfo i g Hij Hi).
Qed.

(** A run of the [while] loop leaves the members from [rhs] on closed
    under the generator applied on the left. *)
Lemma while_loop_closed gens fuel gi gen : ∀ rhs (st st' : build),
  while_loop fuel gi gen rhs st = Some st' →
  build_inv gens st →
  closure gens gen →
  gi < length (members st.1) →
  ∀ k m, rhs ≤ k → members st'.1 !! k = Some m →
    make_hashable (func gen m) ∈ make_hashable <$> members st'.1.
Proof.
  induction fuel as [|fuel IH]; intros rhs st st' Hrun Hinv Hgen Hgi k m Hk Hm;
    [discriminate|].
  simpl in Hrun. destruct (members st.1 !! rhs) as [m0|] eqn:Hm0.
  - pose proof (add_product_inv gens gi rhs gen m0 st Hinv Hgen Hm0 Hgi) as Hinv1.
    pose proof (add_product_extends gi rhs (func gen m0) st) as Hext.
    assert (gi < length (members (add_product gi rhs (func gen m0) st).1))
      as Hgi1 by (apply extends_length in Hext; lia).
    destruct (decide (k = rhs)) as [->|Hne].
    + destruct (while_loop_inv gens fuel gi gen (S rhs) _ st' Hrun Hinv1 Hgen Hgi1)
        as [_ (_ & _ & ms' & _ & Hms' & _)].
      assert (make_hashable (func gen m0)
              ∈ make_hashable <$> members (add_product gi rhs (func gen m0) st).1)
        as Hprod.
      { destruct st as [t seen]. unfold TestUtils.add_product.
        case_decide as Hin; simpl.
        - by apply (inv_seen _ _ _ _ Hinv).
        - rewrite fmap_app. apply elem_of_app. right. by apply list_elem_of_singleton. }
      assert (m = m0) as ->.
      { destruct Hext as (_ & _ & ms & _ & Hms & _).
        rewrite Hms', Hms, <-app_assoc in Hm.
        rewrite lookup_app_l in Hm by (by eapply lookup_lt_Some). congruence. }
      rewrite Hms', fmap_app. apply elem_of_app. by left.
    + eapply IH; [exact Hrun|done|done|done| |exact Hm]. lia.
  - injection Hrun as <-. apply lookup_ge_None in Hm0.
    apply lookup_lt_Some in Hm. lia.
Qed.

Lemma seed_singleton g :
  seed [g] = (MkTree [g] [0] [g] [Leaf 0], ∅ ∪ {[make_hashable g]}).
Proof.
  unfold TestUtils.seed, enumerate. simpl.
  by rewrite decide_False by apply not_elem_of_empty.
Qed.

(** With a single generator, as in every tree the tests build, the member
    list is closed: the generator times a member is again a member. *)
Lemma single_generator_closed g fuel t :
  init fuel [g] = Some t →
  ∀ m, m ∈ members t →
    make_hashable (func g m) ∈ make_hashable <$> members t.
Proof.
  intros Hinit m Hm. apply list_elem_of_lookup in Hm as [k Hk].
  unfold TestUtils.init in Hinit.
  destruct (seed_facts [g]) as (Hinv & _).
  rewrite seed_singleton in Hinit, Hinv. simpl in Hinit.
  destruct (while_loop fuel 0 g 0 _) as [st|] eqn:Hrun; [|discriminate].
  injection Hinit as <-.
  eapply (while_loop_closed [g] fuel 0 g 0 _ st Hrun Hinv); [..|exact Hk].
  - apply closure_gen, list_elem_of_here.
  - simpl. lia.
  - lia.
Qed.

Lemma add_product_products gens gi rhs gen m (st : build) :
  build_inv gens st →
  members st.1 !! gi = Some gen →
  members st.1 !! rhs = Some m →
  binary_nodes_are_products st.1 →
  binary_nodes_are_products (add_product gi rhs (func gen m) st).1.
Proof.
  intros Hinv Hgi Hm Hok. destruct st as [t seen].
  unfold TestUtils.add_product. case_decide as Hin; [done|]. simpl in *.
  intros k a b Hk. simpl in Hk.
  apply lookup_app_Some in Hk as [Hk|[Hle Hk]].
  - destruct (Hok k a b Hk) as (x & y & Hx & Hy & Hxy).
    exists x, y. simpl. split_and!; by apply lookup_app_l_Some.
  - apply list_lookup_singleton_Some in Hk as [Hk0 Heq]. injection Heq as <- <-.
    exists gen, m. simpl. split_and!; [by apply lookup_app_l_Some..|].
    apply list_lookup_middle. pose proof (inv_len _ _ _ _ Hinv) as Hl.
    simpl in Hl. lia.
Qed.

Lemma extends_lookup (st st' : build) k m :
  extends st st' → members st.1 !! k = Some m → members st'.1 !! k = Some m.
Proof. intros (_ & _ & ms & _ & -> & _) Hk. by apply lookup_app_l_Some. Qed.

Lemma while_loop_products gens fuel gi gen : ∀ rhs (st st' : build),
  while_loop fuel gi gen rhs st = Some st' →
  build_inv gens st →
  closure gens gen →
  members st.1 !! gi = Some gen →
  binary_nodes_are_products st.1 →
  binary_nodes_are_products st'.1.
Proof.
  induction fuel as [|fuel IH]; intros rhs st st' Hrun Hinv Hgen Hgi Hok;
    [discriminate|].
  simpl in Hrun. destruct (members st.1 !! rhs) as [m|] eqn:Hm.
  - apply lookup_lt_Some in Hgi as Hlt.
    eapply IH; [exact Hrun|by apply add_product_inv|done|..].
    + eapply extends_lookup; [apply add_product_extends|done].
    + by eapply add_product_products.
  - by injection Hrun as <-.
Qed.

Lemma for_loop_products gens fuel : ∀ pairs (st st' : build),
  for_loop fuel pairs st = Some st' →
  build_inv gens st →
  Forall (λ p, members st.1 !! p.1 = Some p.2 ∧ closure gens p.2) pairs →
  binary_nodes_are_products st.1 →
  binary_nodes_are_products st'.1.
Proof.
  induction pairs as [|[gi gen] rest IH]; intros st st' Hrun Hinv Hall Hok.
  - by injection Hrun as <-.
  - simpl in Hrun.
    destruct (while_loop fuel gi gen 0 st) as [st1|] eqn:Hw; [|discriminate].
    simpl in Hrun. apply Forall_cons in Hall as [[Hgi Hgen] Hall].
    simpl in Hgi, Hgen. apply lookup_lt_Some in Hgi as Hlt.
    destruct (while_loop_inv gens fuel gi gen 0 st st1 Hw Hinv Hgen Hlt)
      as [Hinv1 Hext1].
    eapply IH; [exact Hrun|done|..].
    + eapply Forall_impl; [exact Hall|]. intros [i g] [Hi Hg]. simpl in *.
      split; [|done]. by eapply extends_lookup.
    + by eapply while_loop_products.
Qed.

(** Generators with pairwise distinct canonical forms are all retained,
    in order. *)
Lemma seed_prefix_distinct gens0 : ∀ p rest, gens0 = p ++ rest →
  NoDup (make_hashable <$> p) →
  members (foldl seed_step (MkTree gens0 [] [] [], ∅) (enumerate p)).1 = p.
Proof.
  induction p as [|x p IH] using rev_ind; intros rest Hgens Hnodup; [done|].
  rewrite fmap_app in Hnodup. apply NoDup_app in Hnodup as (Hnd & Hnew & _).
  assert (gens0 = p ++ [x] ++ rest) as Hgens' by by rewrite Hgens, <-app_assoc.
  specialize (IH _ Hgens' Hnd).
  destruct (seed_prefix gens0 p _ Hgens') as (Hinv & _).
  rewrite enumerate_snoc, foldl_snoc.
  destruct (foldl seed_step (MkTree gens0 [] [] [], ∅) (enumerate p))
    as [t seen] eqn:Hst.
  simpl in IH. unfold TestUtils.seed_step. case_decide as Hin; simpl.
  - exfalso. apply (inv_seen _ _ _ _ Hinv) in Hin. simpl in Hin.
    rewrite IH in Hin. apply (Hnew _ Hin). simpl. apply list_elem_of_here.
  - by rewrite IH.
Qed.

Lemma seed_distinct gens :
  NoDup (make_hashable <$> gens) →
  members (seed gens).1 = gens ∧
  generator_indices (seed gens).1 = seq 0 (length gens).
Proof.
  intros Hnodup.
  pose proof (seed_prefix_distinct gens gens [] ltac:(by rewrite app_nil_r) Hnodup)
    as Hm.
  destruct (seed_facts gens) as (_ & Hidx & _).
  split; [done|]. simpl in Hidx. rewrite Hidx. unfold TestUtils.seed. by rewrite Hm.
Qed.

(** Replaying with the identity rebuilds the members when binary nodes
    are products of earlier members and leaves hold their generator. *)
Lemma replay_identity (gens : list G) (ds : list decomp) (ms : list G) :
  length ds = length ms →
  (∀ k a b, ds !! k = Some (Binary a b) →
     a < k ∧ b < k ∧
     ∃ x y, ms !! a = Some x ∧ ms !! b = Some y ∧ ms !! k = Some (func x y)) →
  (∀ k i, ds !! k = Some (Leaf i) → is_Some (gens !! i) ∧ ms !! k = gens !! i) →
  ∀ n, n ≤ length ds →
    foldl (hom_step gens (λ _ g, g) func) (Some []) (take n ds)
    = Some (take n ms).
Proof.
  intros Hlen Hbin Hleaf. induction n as [|n IH]; intros Hn; [done|].
  destruct (lookup_lt_is_Some_2 ds n) as [d Hd]; [lia|].
  destruct (lookup_lt_is_Some_2 ms n) as [m Hm]; [lia|].
  rewrite (take_S_r ds n d Hd), (take_S_r ms n m Hm), foldl_snoc, IH by lia.
  simpl. destruct d as [i|a b].
  - destruct (Hleaf n i Hd) as [[g Hg] Heq]. rewrite Hg. simpl.
    rewrite Hg in Heq. congruence.
  - destruct (Hbin n a b Hd) as (Ha & Hb & x & y & Hx & Hy & Hxy).
    rewrite !lookup_take_lt, Hx, Hy by done. simpl. congruence.
Qed.

(** For generators with pairwise distinct canonical forms the
    decomposition is right: every binary node is the product of the
    members it names, and replaying the tree with the identity and the
    operation itself gives back the members. *)
Lemma distinct_generators_replay gens fuel t :
  NoDup (make_hashable <$> gens) →
  init fuel gens = Some t →
  binary_nodes_are_products t ∧
  compute_homomorphism t (λ _ g, g) func = Some (members t).
Proof.
  intros Hnodup Hinit.
  assert (binary_nodes_are_products t) as Hok.
  { destruct gens as [|g gens].
    - injection Hinit as <-. intros k a b Hk. done.
    - unfold TestUtils.init in Hinit.
      destruct (for_loop _ _ _) as [st|] eqn:Hrun; [|discriminate].
      injection Hinit as <-.
      destruct (seed_facts (g :: gens)) as (Hinv & _ & Hleaf & _).
      destruct (seed_distinct (g :: gens) Hnodup) as [Hm Hidx].
      eapply (for_loop_products (g :: gens)); [exact Hrun|done|..].
      + apply Forall_forall. intros [i x] Hix.
        apply list_elem_of_lookup in Hix as [k Hk].
        apply lookup_zip_Some in Hk as [Hi Hx].
        rewrite Hidx in Hi. apply lookup_seq in Hi as [-> _].
        rewrite (inv_gens _ _ _ _ Hinv) in Hx. simpl.
        split; [by rewrite Hm|].
        apply closure_gen. by eapply list_elem_of_lookup_2.
      + intros k a b Hk. destruct (Hleaf k _ Hk) as (i & m & Heq & _). done. }
  split; [done|].
  destruct (init_run gens fuel t Hinit) as (st & <- & Hinv & _).
  destruct (init_leaves gens fuel st.1 Hinit) as (Hleaf & _).
  unfold compute_homomorphism.
  rewrite <-(take_ge (decomps st.1) (length (decomps st.1))) by done.
  rewrite <-(take_ge (members st.1) (length (decomps st.1)))
    by (by rewrite (inv_len _ _ _ _ Hinv)).
  rewrite (inv_gens _ _ _ _ Hinv).
  apply replay_identity; [apply Hinv| | |done].
  - intros k a b Hk. destruct (inv_binary _ _ _ _ Hinv k a b Hk) as [Ha Hb].
    split_and!; [done..|]. by apply Hok.
  - intros k i Hk. destruct (Hleaf k i Hk) as (_ & Hsome & Heq). done.
Qed.

End InitProofs.

(** ** The construction on concrete inputs *)

Lemma add_mod_assoc n x y z :
  add_mod n (add_mod n x y) z = add_mod n x (add_mod n y z).
Proof.
  unfold add_mod.
  rewrite Zplus_mod_idemp_l, Zplus_mod_idemp_r. f_equal. lia.
Qed.

Lemma add_mod_closure_range n gens x :
  (0 < n)%Z →
  Forall (λ g, 0 ≤ g < n)%Z gens →
  closure (add_mod n) gens x → (0 ≤ x < n)%Z.
Proof.
  intros Hn Hgens Hx. induction Hx as [g Hg|a b _ _ _ _].
  - by eapply Forall_forall in Hgens.
  - by apply Z.mod_pos_bound.
Qed.

Lemma add_mod5_closure_bound gens x :
  Forall (λ g, 0 ≤ g < 5)%Z gens →
  closure (add_mod 5) gens x → x ∈ ({[0; 1; 2; 3; 4]}%Z : gset Z).
Proof.
  intros Hgens Hx.
  pose proof (add_mod_closure_range 5 gens x ltac:(lia) Hgens Hx).
  rewrite !elem_of_union, !elem_of_singleton. lia.
Qed.

Lemma apply3_compose3 a b i : apply3 (compose3 a b) i = apply3 a (apply3 b i).
Proof. by destruct i as [|[|i]]. Qed.

Lemma compose3_assoc a b c :
  compose3 (compose3 a b) c = compose3 a (compose3 b c).
Proof. unfold compose3 at 1 3. simpl. by rewrite !apply3_compose3. Qed.

(** Under addition of naturals the inner loop appends a new member at
    every iteration, so no amount of fuel lets it finish. *)
Lemma nat_add_loop_diverges : ∀ fuel n (st : TestUtils.build),
  members st.1 = seq 1 (S n) →
  (∀ k, k ∈ st.2 ↔ 1 ≤ k ≤ S n) →
  while_loop Nat.add id fuel 0 1 n st = None.
Proof.
  induction fuel as [|fuel IH]; intros n [t seen] Hm Hs; [done|].
  cbn [fst snd] in Hm, Hs. cbn [while_loop fst]. rewrite Hm.
  rewrite lookup_seq_lt by lia. cbn [Nat.add].
  apply IH.
  - unfold add_product. case_decide as Hin; [apply Hs in Hin; unfold id in Hin; lia|].
    cbn [fst members]. rewrite Hm. by rewrite (seq_S (S n)).
  - intros k. unfold add_product.
    case_decide as Hin; [apply Hs in Hin; unfold id in Hin; lia|].
    cbn [snd]. rewrite elem_of_union, elem_of_singleton, Hs. unfold id. lia.
Qed.

Lemma seed_one_one :
  seed (K:=nat) id [1; 1] = (MkTree [1; 1] [0] [1] [Leaf 0], ∅ ∪ {[1]}).
Proof.
  by vm_compute.
Qed.

(** C8, as stated, fails: the generator list [1; 1] under addition of
    naturals has a redundant second generator, and the construction never
    completes on it. *)
Lemma redundant_generator_never_completes :
  ¬ ∃ fuel, is_Some (init Nat.add id fuel [1; 1]).
Proof.
  intros [fuel [t Ht]]. unfold init in Ht. rewrite seed_one_one in Ht.
  cbn [fst generator_indices generators zip zip_with for_loop] in Ht.
  rewrite (nat_add_loop_diverges fuel 0) in Ht; [done|done|].
  intros k. cbn [snd]. rewrite elem_of_union, elem_of_singleton.
  split; [|lia]. intros [Hk| ->]; [|lia]. by apply not_elem_of_empty in Hk.
Qed.

(** C1 on a failing input: under composition of maps of {0, 1, 2}, an
    associative operation, the generators (0,2,1) and (1,0,0) give five
    members, and the product of the generator (0,2,1) with the member
    (0,1,1) is none of them: the member list is not closed. *)
Theorem closure_misses_product :
  (∀ a b c, compose3 (compose3 a b) c = compose3 a (compose3 b c)) ∧
  ∃ t, init compose3 id 6 [(0, 2, 1); (1, 0, 0)] = Some t ∧
       members t = [(0, 2, 1); (1, 0, 0); (0, 1, 2); (2, 0, 0); (0, 1, 1)] ∧
       (0, 2, 1) ∈ generators t ∧
       (0, 1, 1) ∈ members t ∧
       id (compose3 (0, 2, 1) (0, 1, 1)) ∉ id <$> members t.
Proof.
  split; [apply compose3_assoc|].
  eexists. split; [by vm_compute|]. cbn [members generators].
  split_and!; [done|set_solver|set_solver|].
  rewrite list_fmap_id. vm_compute compose3.
  intros Hin. repeat (apply elem_of_cons in Hin as [Hin|Hin]; [discriminate|]).
  by apply elem_of_nil in Hin.
Qed.

(** C2 on a failing input: with the generators [0; 0; 1; 2] under addition
    modulo 4 the node at position 3 is decomposed as (2, 2), yet it holds
    3 while the product of the members at 2 and 2 is 0; replaying the
    tree with the identity and the same operation gives [0; 1; 2; 0], not
    the members [0; 1; 2; 3]. *)
Theorem replay_differs_after_redundant_generator :
  ∃ t, init (add_mod 4) id 5 [0; 0; 1; 2]%Z = Some t ∧
       members t = [0; 1; 2; 3]%Z ∧
       decomps t !! 3 = Some (Binary 2 2) ∧
       members t !! 3 = Some 3%Z ∧
       members t !! 2 = Some 2%Z ∧
       add_mod 4 2 2 = 0%Z ∧
       compute_homomorphism t (λ _ g, g) (add_mod 4) = Some [0; 1; 2; 0]%Z.
Proof. eexists. split; [by vm_compute|]. by vm_compute. Qed.

(** A run the general theorems are applied to: the cyclic group of order
    5, from the generators [1; 1] under addition modulo 5. *)
Lemma init_add_mod5 :
  init (add_mod 5) id 6 [1; 1]%Z
  = Some (MkTree [1; 1]%Z [0] [1; 2; 3; 4; 0]%Z
            [Leaf 0; Binary 0 0; Binary 0 1; Binary 0 2; Binary 0 3]).
Proof. by vm_compute. Qed.

Lemma members_canonical_forms_distinct_witness :
  NoDup (id <$> [1; 2; 3; 4; 0]%Z).
Proof.
  exact (members_canonical_forms_distinct (add_mod 5) id [1; 1]%Z 6 _
           init_add_mod5).
Defined.

Lemma decomps_reference_earlier_witness :
  ∃ out, compute_homomorphism
           (MkTree [1; 1]%Z [0] [1; 2; 3; 4; 0]%Z
              [Leaf 0; Binary 0 0; Binary 0 1; Binary 0 2; Binary 0 3])
           (λ _ g, g) (add_mod 5) = Some out ∧ length out = 5.
Proof.
  exact (proj2 (decomps_reference_earlier (add_mod 5) id [1; 1]%Z 6 _
                  init_add_mod5) Z (λ _ g, g) (add_mod 5)).
Defined.

Lemma init_terminates_witness :
  ∃ t, init (add_mod 5) id 6 [1; 1]%Z = Some t ∧
       length (members t) ≤ size ({[0; 1; 2; 3; 4]}%Z : gset Z).
Proof.
  apply (init_terminates (add_mod 5) id [1; 1]%Z {[0; 1; 2; 3; 4]}%Z 6).
  - intros x Hx. apply (add_mod5_closure_bound [1; 1]%Z x); [|exact Hx].
    repeat constructor; lia.
  - vm_compute. lia.
Defined.

Lemma redundant_generators_skipped_witness :
  ∃ t, init (add_mod 5) id 6 [1; 1]%Z = Some t ∧ Leaf 1 ∉ decomps t.
Proof.
  destruct (redundant_generators_skipped (add_mod 5) id [1; 1]%Z
              {[0; 1; 2; 3; 4]}%Z 6) as (t & Ht & _ & _ & _ & _ & Hdup).
  - intros x Hx. apply (add_mod5_closure_bound [1; 1]%Z x); [|exact Hx].
    repeat constructor; lia.
  - vm_compute. lia.
  - exists t. split; [exact Ht|]. by apply (Hdup 0 1 1%Z 1%Z); [lia|..].
Defined.

(** ** The symmetry expansion engine *)

Import Symmetry TestSymmetry.

Lemma first_some_None {A B} (f : A → option B) (l : list A) :
  (∀ x, x ∈ l → f x = None) → first_some f l = None.
Proof.
  induction l as [|x l IH]; intros Hall; [done|]. simpl.
  rewrite (Hall x) by apply list_elem_of_here.
  apply IH. intros y Hy. apply Hall. by apply list_elem_of_further.
Qed.




Lemma find_representative_None disp_atoms perm atom :
  (∀ i, i ∈ disp_atoms → perm !! i ≠ Some atom) →
  find_representative disp_atoms perm atom = None.
Proof.
  intros Hall. apply first_some_None. intros i Hi.
  case_decide; [|done]. by destruct (Hall i Hi).
Qed.

Lemma result_mapM_Err {A B} (f : A → result B) (l : list A) x e :
  x ∈ l → f x = Err e →
  (∀ y e', f y = Err e' → e' = e) →
  result_mapM f l = Err e.
Proof.
  intros Hin Hx Honly. induction l as [|y l IH]; [by apply elem_of_nil in Hin|].
  simpl. destruct (f y) as [b|e'] eqn:Hy; simpl.
  - apply elem_of_cons in Hin as [->|Hin]; [congruence|].
    by rewrite (IH Hin).
  - f_equal. by eapply Honly.
Qed.


Section ExpandProofs.
Context {Cart V D Rot : Type}.
Implicit Types (cb : callbacks Cart V D Rot) (disp_atoms : list nat).
Implicit Types (disp_carts : list Cart) (disp_values : list V).
Implicit Types (oper_cart_rots : list Rot) (oper_perms : list (list nat)).

Lemma find_source_None disp_atoms oper_cart_rots oper_perms quotient atom :
  atom ∉ disp_atoms →
  (∀ perm, perm ∈ quotient ++ oper_perms →
     ∀ i, i ∈ disp_atoms → perm !! i ≠ Some atom) →
  find_source disp_atoms oper_cart_rots oper_perms quotient atom = None.
Proof.
  intros Hnot Hperm. unfold find_source. rewrite decide_False by done.
  rewrite first_some_None.
  - apply first_some_None. intros [rot perm] Hop. simpl.
    rewrite find_representative_None; [done|].
    apply Hperm, elem_of_app. right. by apply elem_of_zip_r in Hop.
  - intros q Hq. rewrite find_representative_None; [done|].
    apply Hperm, elem_of_app. by left.
Qed.



(** When one of the supplied permutations leaves every sampled atom in
    place, as the identity of a group does, an atom that is not the image
    of any sampled atom is not a sampled atom. *)
Lemma not_image_not_sampled disp_atoms (perms : list (list nat)) atom :
  (∃ perm, perm ∈ perms ∧ ∀ i, i ∈ disp_atoms → perm !! i = Some i) →
  (∀ perm, perm ∈ perms → ∀ i, i ∈ disp_atoms → perm !! i ≠ Some atom) →
  atom ∉ disp_atoms.
Proof.
  intros (perm & Hperm & Hfix) Hnot Hin.
  by apply (Hnot perm Hperm atom Hin), Hfix.
Qed.

(** C4: when some atom of the structure is not sampled and is not the
    image of any sampled atom under any supplied quotient or full-group
    permutation, the call fails with the "symmetry coverage incomplete"
    error; it returns no result at all, so no partial, zero-filled or
    undefined entry for that atom. *)
Theorem unreachable_atom_fails disp_atoms disp_carts disp_values cb
    oper_cart_rots oper_perms quotient_perms atom :
  atom < default 0 (length <$> head oper_perms) →
  atom ∉ disp_atoms →
  (∀ perm, perm ∈ default [] quotient_perms ++ oper_perms →
     ∀ i, i ∈ disp_atoms → perm !! i ≠ Some atom) →
  expand_derivs_by_symmetry disp_atoms disp_carts disp_values cb
    oper_cart_rots oper_perms quotient_perms
  = Err SymmetryCoverageIncomplete.
Proof.
  intros Hatom Hnot Hperm. unfold expand_derivs_by_symmetry.
  rewrite (result_mapM_Err _ _ atom SymmetryCoverageIncomplete); [done|..].
  - apply elem_of_seq. lia.
  - unfold source_or_fail. by rewrite find_source_None.
  - intros y e' Hy. unfold source_or_fail in Hy.
    destruct (find_source _ _ _ _ _); [done|]. by injection Hy as <-.
Qed.




End ExpandProofs.

Lemma unreachable_atom_fails_witness :
  expand_derivs_by_symmetry [0; 0; 0; 0; 0; 0]
    (take 6 pure_translation_disp_carts) (take 6 pure_translation_disp_values)
    scalar_callbacks [()] [[0; 1]] None
  = Err SymmetryCoverageIncomplete.
Proof.
  apply (unreachable_atom_fails _ _ _ scalar_callbacks [()] [[0; 1]] None 1).
  - simpl. lia.
  - intros Hin. repeat (apply elem_of_cons in Hin as [Hin|Hin]; [lia|]).
    by apply elem_of_nil in Hin.
  - intros perm Hperm i Hi. apply list_elem_of_singleton in Hperm. subst perm.
    repeat (apply elem_of_cons in Hi as [->|Hi]; [done|]).
    by apply elem_of_nil in Hi.
Defined.

(** The model passes [test_general_array_atom]: the gradients of atoms 1
    and 2 are those of atom 0 under the two rotations of the group. *)
Lemma general_array_atom_expected :
  let sym := sym_xyz_3_atom in
  expand_derivs_by_symmetry general_array_atom_disp_atoms
    general_array_atom_disp_carts general_array_atom_disp_values
    atom_array_callbacks (oper_cart_rots sym) (oper_perms sym)
    (quotient_perms sym)
  = Ok [[[20; 30; 40]; [50; 60; 70]; [80; 90; 100]];
        [[100; 80; 90]; [40; 20; 30]; [70; 50; 60]];
        [[60; 70; 50]; [90; 100; 80]; [30; 40; 20]]]%Z.
Proof. by vm_compute. Qed.



(** ** More on the construction of the tree *)

Section InitExtras.
Context {G K : Type} `{Countable K}.
Variable func : G → G → G.
Variable make_hashable : G → K.

Local Abbreviation build := (@TestUtils.build G K _ _).
Local Abbreviation add_product := (TestUtils.add_product make_hashable).
Local Abbreviation while_loop := (TestUtils.while_loop func make_hashable).
Local Abbreviation for_loop := (TestUtils.for_loop func make_hashable).
Local Abbreviation seed := (TestUtils.seed make_hashable).
Local Abbreviation init := (TestUtils.init func make_hashable).
Local Abbreviation closure := (TestUtils.closure func).
Local Abbreviation build_inv := (TestUtils.build_inv func make_hashable).
Local Abbreviation first_occurrence := (TestUtils.first_occurrence make_hashable).
Local Abbreviation binary_nodes_apply_generators :=
  (TestUtils.binary_nodes_apply_generators func).

Lemma add_product_applies gens gi rhs gen m (st : build) :
  build_inv gens st →
  generators st.1 !! gi = Some gen →
  members st.1 !! rhs = Some m →
  binary_nodes_apply_generators st.1 →
  binary_nodes_apply_generators (add_product gi rhs (func gen m) st).1.
Proof.
  intros Hinv Hgi Hm Hok. destruct st as [t seen].
  unfold TestUtils.add_product. case_decide as Hin; [done|]. simpl in *.
  intros k a b Hk. simpl in Hk.
  apply lookup_app_Some in Hk as [Hk|[Hle Hk]].
  - destruct (Hok k a b Hk) as (x & y & Hx & Hy & Hxy).
    exists x, y. simpl. split_and!; [done|by apply lookup_app_l_Some..].
  - apply list_lookup_singleton_Some in Hk as [Hk0 Heq]. injection Heq as <- <-.
    exists gen, m. simpl. split_and!; [done|by apply lookup_app_l_Some|].
    apply list_lookup_middle. pose proof (inv_len _ _ _ _ Hinv) as Hl.
    simpl in Hl. lia.
Qed.

Lemma add_product_generators gi rhs p (st : build) :
  generators (add_product gi rhs p st).1 = generators st.1.
Proof. by destruct (add_product_extends make_hashable gi rhs p st) as [? _]. Qed.

Lemma while_loop_applies gens fuel gi gen : ∀ rhs (st st' : build),
  while_loop fuel gi gen rhs st = Some st' →
  build_inv gens st →
  closure gens gen →
  gi < length (members st.1) →
  generators st.1 !! gi = Some gen →
  binary_nodes_apply_generators st.1 →
  binary_nodes_apply_generators st'.1.
Proof.
  induction fuel as [|fuel IH]; intros rhs st st' Hrun Hinv Hgen Hlt Hgi Hok;
    [discriminate|].
  simpl in Hrun. destruct (members st.1 !! rhs) as [m|] eqn:Hm.
  - pose proof (add_product_extends make_hashable gi rhs (func gen m) st) as Hext.
    eapply IH; [exact Hrun|by apply add_product_inv|done|..].
    + apply extends_length in Hext. lia.
    + by rewrite add_product_generators.
    + by eapply add_product_applies.
  - by injection Hrun as <-.
Qed.

Lemma for_loop_applies gens fuel : ∀ pairs (st st' : build),
  for_loop fuel pairs st = Some st' →
  build_inv gens st →
  Forall (λ p, p.1 < length (members st.1) ∧ gens !! p.1 = Some p.2) pairs →
  binary_nodes_apply_generators st.1 →
  binary_nodes_apply_generators st'.1.
Proof.
  induction pairs as [|[gi gen] rest IH]; intros st st' Hrun Hinv Hall Hok.
  - by injection Hrun as <-.
  - simpl in Hrun.
    destruct (while_loop fuel gi gen 0 st) as [st1|] eqn:Hw; [|discriminate].
    simpl in Hrun. apply Forall_cons in Hall as [[Hlt Hgi] Hall].
    simpl in Hlt, Hgi.
    assert (closure gens gen) as Hgen
      by (apply closure_gen; by eapply list_elem_of_lookup_2).
    destruct (while_loop_inv func make_hashable gens fuel gi gen 0 st st1
                Hw Hinv Hgen Hlt) as [Hinv1 Hext1].
    eapply IH; [exact Hrun|done|..].
    + eapply Forall_impl; [exact Hall|]. intros [i g] [Hi Hg]. simpl in *.
      split; [|done]. apply extends_length in Hext1. lia.
    + eapply while_loop_applies; [exact Hw|done..| |done].
      by rewrite (inv_gens _ _ _ _ Hinv).
Qed.

(** The pairs the second loop goes through are the first generators of
    the list, each with its position. *)
Lemma seed_zip gens :
  Forall (λ p, p.1 < length (members (seed gens).1) ∧ gens !! p.1 = Some p.2)
         (zip (generator_indices (seed gens).1) (generators (seed gens).1)).
Proof.
  destruct (seed_facts func make_hashable gens) as (Hinv & Hidx & _).
  simpl in Hinv, Hidx.
  apply Forall_forall. intros [i g] Hig. simpl.
  apply list_elem_of_lookup in Hig as [k Hk].
  apply lookup_zip_Some in Hk as [Hi Hg].
  rewrite Hidx in Hi. apply lookup_seq in Hi as [-> Hlt].
  rewrite (inv_gens _ _ _ _ Hinv) in Hg. done.
Qed.

Lemma init_applies gens fuel t :
  init fuel gens = Some t → binary_nodes_apply_generators t.
Proof.
  intros Hinit. destruct gens as [|g gens].
  - injection Hinit as <-. intros k a b Hk. done.
  - unfold TestUtils.init in Hinit.
    destruct (for_loop _ _ _) as [st|] eqn:Hrun; [|discriminate].
    injection Hinit as <-.
    destruct (seed_facts func make_hashable (g :: gens)) as (Hinv & _ & Hleaf & _).
    eapply (for_loop_applies (g :: gens)); [exact Hrun|done|apply seed_zip|].
    intros k a b Hk. destruct (Hleaf k _ Hk) as (i & m & Heq & _). done.
Qed.

(** X1: every member of a constructed tree lies in the semigroup
    generated by the generators: a property that holds of the generators
    and is preserved by the operation holds of every member. *)
Theorem members_satisfy_invariant gens fuel t (P : G → Prop) :
  init fuel gens = Some t →
  (∀ g, g ∈ gens → P g) →
  (∀ a b, P a → P b → P (func a b)) →
  ∀ m, m ∈ members t → P m.
Proof.
  intros Hinit Hgens Hfunc m Hm.
  destruct (init_run func make_hashable gens fuel t Hinit) as (st & <- & Hinv & _).
  pose proof (inv_closure _ _ _ _ Hinv m Hm) as Hcl. clear Hm.
  induction Hcl as [g Hg|a b _ IHa _ IHb]; [by apply Hgens|by apply Hfunc].
Qed.

(** X2: every generator is represented among the members: the first
    generator of the list with the same canonical form is a member. *)
Theorem generators_among_members gens fuel t :
  init fuel gens = Some t →
  ∀ g, g ∈ gens →
    ∃ i m, first_occurrence gens i ∧ gens !! i = Some m ∧
           make_hashable m = make_hashable g ∧ m ∈ members t.
Proof.
  intros Hinit g Hg.
  destruct (init_leaves func make_hashable gens fuel t Hinit)
    as (Hleaf & _ & Hcover & _).
  destruct (Hcover g Hg) as (k & i & m & Hk & Hi & Heq).
  destruct (Hleaf k i Hk) as (Hfo & _ & Hm).
  exists i, m. split_and!; [done..|].
  rewrite Hi in Hm. by eapply list_elem_of_lookup_2.
Qed.

(** X3: the shape of a constructed tree.  It keeps the generator list,
    has one decomposition per member, and its leaves come first: they are
    exactly the nodes below n, the number of distinct canonical forms of
    the generators, and generator_indices lists these nodes in order. *)
Theorem leaves_come_first gens fuel t :
  init fuel gens = Some t →
  generators t = gens ∧
  length (decomps t) = length (members t) ∧
  let n := size (list_to_set (make_hashable <$> gens) : gset K) in
  generator_indices t = seq 0 n ∧
  ∀ k, k < n ↔ ∃ i, decomps t !! k = Some (Leaf i).
Proof.
  intros Hinit.
  destruct (init_run func make_hashable gens fuel t Hinit)
    as (st & <- & Hinv & Hext).
  destruct (seed_facts func make_hashable gens)
    as (Hinv0 & Hidx & Hleaf & _ & Hseen).
  destruct Hext as (_ & Hgi & ms & bs & Hms & Hbs & Hbin).
  split; [apply Hinv|]. split; [apply Hinv|].
  assert (length (members (seed gens).1)
          = size (list_to_set (make_hashable <$> gens) : gset K)) as Hn.
  { rewrite <-(length_fmap make_hashable).
    rewrite <-(size_list_to_set (C:=gset K)) by apply Hinv0.
    f_equal. apply set_eq. intros k. rewrite !elem_of_list_to_set. split.
    - intros Hk. apply list_elem_of_fmap in Hk as (m & -> & Hm).
      apply list_elem_of_lookup in Hm as [j Hj].
      destruct (lookup_lt_is_Some_2 (decomps (seed gens).1) j) as [d Hd].
      { rewrite (inv_len _ _ _ _ Hinv0). by eapply lookup_lt_Some. }
      destruct (Hleaf j d Hd) as (i & m' & _ & Hm' & Hg & _).
      rewrite Hj in Hm'. injection Hm' as <-.
      apply list_elem_of_fmap. exists m. split; [done|].
      by eapply list_elem_of_lookup_2.
    - intros Hk. apply list_elem_of_fmap in Hk as (g & -> & Hg).
      apply (inv_seen _ _ _ _ Hinv0). by apply Hseen. }
  cbv zeta. rewrite <-Hn. split; [by rewrite Hgi|].
  intros k. rewrite Hbs. split.
  - intros Hk. rewrite <-(inv_len _ _ _ _ Hinv0) in Hk.
    destruct (lookup_lt_is_Some_2 _ _ Hk) as [d Hd].
    destruct (Hleaf k d Hd) as (i & _ & -> & _).
    exists i. by apply lookup_app_l_Some.
  - intros [i Hk]. apply lookup_app_Some in Hk as [Hk|[_ Hk]].
    + rewrite <-(inv_len _ _ _ _ Hinv0). by eapply lookup_lt_Some.
    + eapply Forall_lookup_1 in Hbin; [|exact Hk]. done.
Qed.

(** X4: in every constructed tree, also one built from redundant
    generators, the member of a binary node (a, b) is the product of the
    generator at position a of the generator list and of the member at
    node b, and b is an earlier node. *)
Theorem binary_nodes_hold_generator_products gens fuel t :
  init fuel gens = Some t →
  ∀ k a b, decomps t !! k = Some (Binary a b) →
    b < k ∧
    ∃ g m, gens !! a = Some g ∧ members t !! b = Some m ∧
           members t !! k = Some (func g m).
Proof.
  intros Hinit k a b Hk.
  destruct (init_run func make_hashable gens fuel t Hinit)
    as (st & <- & Hinv & _).
  split; [by destruct (inv_binary _ _ _ _ Hinv k a b Hk)|].
  destruct (init_applies gens fuel st.1 Hinit k a b Hk) as (g & m & Hg & Hm).
  exists g, m. by rewrite <-(inv_gens _ _ _ _ Hinv).
Qed.

Lemma replay_hom {H'} (h : G → H') (compose : H' → H' → H')
    (gens : list G) (ds : list decomp) (ms : list G) :
  length ds = length ms →
  (∀ k a b, ds !! k = Some (Binary a b) →
     a < k ∧ b < k ∧
     ∃ x y, ms !! a = Some x ∧ ms !! b = Some y ∧ ms !! k = Some (func x y) ∧
            h (func x y) = compose (h x) (h y)) →
  (∀ k i, ds !! k = Some (Leaf i) → is_Some (gens !! i) ∧ ms !! k = gens !! i) →
  ∀ n, n ≤ length ds →
    foldl (hom_step gens (λ _ g, h g) compose) (Some []) (take n ds)
    = Some (h <$> take n ms).
Proof.
  intros Hlen Hbin Hleaf. induction n as [|n IH]; intros Hn; [done|].
  destruct (lookup_lt_is_Some_2 ds n) as [d Hd]; [lia|].
  destruct (lookup_lt_is_Some_2 ms n) as [m Hm]; [lia|].
  rewrite (take_S_r ds n d Hd), (take_S_r ms n m Hm), foldl_snoc, IH by lia.
  rewrite fmap_app. simpl. destruct d as [i|a b].
  - destruct (Hleaf n i Hd) as [[g Hg] Heq]. rewrite Hg. simpl.
    rewrite Hg in Heq. congruence.
  - destruct (Hbin n a b Hd) as (Ha & Hb & x & y & Hx & Hy & Hxy & Hh).
    rewrite !list_lookup_fmap, !lookup_take_lt, Hx, Hy by done. simpl.
    rewrite <-Hh. congruence.
Qed.

(** X5: for generators with pairwise distinct canonical forms,
    compute_homomorphism replays any map that respects the operation on
    the generated semigroup: with get_generator = (i, g) -> h(g) it
    returns the images under h of the members, in order. *)
Theorem homomorphism_replay {H'} (h : G → H') (compose : H' → H' → H')
    gens fuel t :
  NoDup (make_hashable <$> gens) →
  (∀ a b, closure gens a → closure gens b →
     h (func a b) = compose (h a) (h b)) →
  init fuel gens = Some t →
  compute_homomorphism t (λ _ g, h g) compose = Some (h <$> members t).
Proof.
  intros Hnodup Hhom Hinit.
  destruct (distinct_generators_replay func make_hashable gens fuel t
              Hnodup Hinit) as [Hok _].
  destruct (init_run func make_hashable gens fuel t Hinit)
    as (st & <- & Hinv & _).
  destruct (init_leaves func make_hashable gens fuel st.1 Hinit) as (Hleaf & _).
  unfold compute_homomorphism.
  rewrite <-(take_ge (decomps st.1) (length (decomps st.1))) by done.
  rewrite <-(take_ge (members st.1) (length (decomps st.1)))
    by (by rewrite (inv_len _ _ _ _ Hinv)).
  rewrite (inv_gens _ _ _ _ Hinv).
  apply replay_hom; [apply Hinv| | |done].
  - intros k a b Hk. destruct (inv_binary _ _ _ _ Hinv k a b Hk) as [Ha Hb].
    destruct (Hok k a b Hk) as (x & y & Hx & Hy & Hxy).
    split_and!; [done..|]. exists x, y. split_and!; [done..|].
    apply Hhom; apply (inv_closure _ _ _ _ Hinv);
      by eapply list_elem_of_lookup_2.
  - intros k i Hk. destruct (Hleaf k i Hk) as (_ & Hsome & Heq). done.
Qed.

End InitExtras.

Lemma init_add_mod5_single :
  init (add_mod 5) id 6 [1]%Z
  = Some (MkTree [1]%Z [0] [1; 2; 3; 4; 0]%Z
            [Leaf 0; Binary 0 0; Binary 0 1; Binary 0 2; Binary 0 3]).
Proof. by vm_compute. Qed.

Lemma double_mod5_hom (a b : Z) :
  ((2 * add_mod 5 a b) mod 5 = add_mod 5 ((2 * a) mod 5) ((2 * b) mod 5))%Z.
Proof.
  unfold add_mod. rewrite Zmult_mod_idemp_r, <-Zplus_mod. f_equal. lia.
Qed.

Lemma members_satisfy_invariant_witness :
  Forall (λ m, 0 ≤ m < 5)%Z [1; 2; 3; 4; 0]%Z.
Proof.
  apply Forall_forall.
  apply (members_satisfy_invariant (add_mod 5) id [1; 1]%Z 6 _
           (λ m, 0 ≤ m < 5)%Z init_add_mod5).
  - intros g Hg. repeat (apply elem_of_cons in Hg as [->|Hg]; [lia|]).
    by apply elem_of_nil in Hg.
  - intros a b _ _. by apply Z.mod_pos_bound.
Defined.

Lemma generators_among_members_witness :
  ∃ i m, first_occurrence id [1; 1]%Z i ∧ [1; 1]%Z !! i = Some m ∧
         id m = id 1%Z ∧ m ∈ [1; 2; 3; 4; 0]%Z.
Proof.
  apply (generators_among_members (add_mod 5) id [1; 1]%Z 6 _ init_add_mod5).
  apply list_elem_of_here.
Defined.

Lemma leaves_come_first_witness :
  generator_indices
    (MkTree [1; 1]%Z [0] [1; 2; 3; 4; 0]%Z
       [Leaf 0; Binary 0 0; Binary 0 1; Binary 0 2; Binary 0 3])
  = seq 0 (size (list_to_set (id <$> [1; 1]%Z) : gset Z)).
Proof.
  exact (proj1 (proj2 (proj2
    (leaves_come_first (add_mod 5) id [1; 1]%Z 6 _ init_add_mod5)))).
Defined.

Lemma binary_nodes_hold_generator_products_witness :
  2 < 3 ∧ ∃ g m, [1; 1]%Z !! 0 = Some g ∧
    [1; 2; 3; 4; 0]%Z !! 2 = Some m ∧
    [1; 2; 3; 4; 0]%Z !! 3 = Some (add_mod 5 g m).
Proof.
  exact (binary_nodes_hold_generator_products (add_mod 5) id [1; 1]%Z 6 _
           init_add_mod5 3 0 2 eq_refl).
Defined.

Lemma homomorphism_replay_witness :
  compute_homomorphism
    (MkTree [1]%Z [0] [1; 2; 3; 4; 0]%Z
       [Leaf 0; Binary 0 0; Binary 0 1; Binary 0 2; Binary 0 3])
    (λ _ g, (2 * g) mod 5)%Z (add_mod 5)
  = Some ((λ g, (2 * g) mod 5)%Z <$> [1; 2; 3; 4; 0]%Z).
Proof.
  refine (homomorphism_replay (add_mod 5) id (λ g, (2 * g) mod 5)%Z (add_mod 5)
            [1]%Z 6
            (MkTree [1]%Z [0] [1; 2; 3; 4; 0]%Z
               [Leaf 0; Binary 0 0; Binary 0 1; Binary 0 2; Binary 0 3])
            _ _ init_add_mod5_single).
  - apply NoDup_singleton.
  - intros a b _ _. apply double_mod5_hom.
Defined.

(** ** [run_once] *)

Section RunOnceProofs.
Context {Args V : Type}.
Variable function : Args → option V.

Local Abbreviation wrapped_calls := (TestUtils.wrapped_calls function).

Lemma wrapped_calls_cached (st : run_once_state) v : ∀ calls,
  value st = Some v →
  wrapped_calls st calls = (st, replicate (length calls) (Some v)).
Proof.
  induction calls as [|args calls IH]; intros Hv; [done|].
  simpl. unfold wrapped. rewrite Hv. by rewrite (IH Hv).
Qed.

Lemma wrapped_calls_raising : ∀ pre (st : run_once_state) rest,
  value st = None →
  Forall (λ args, function args = None) pre →
  wrapped_calls st (pre ++ rest)
  = let '(st', rs) :=
      wrapped_calls (RunOnceState None (function_calls st ++ pre)) rest in
    (st', replicate (length pre) None ++ rs).
Proof.
  induction pre as [|args pre IH]; intros st rest Hv Hpre.
  - simpl. rewrite app_nil_r. destruct st as [v calls]. simpl in Hv. subst v.
    simpl. by destruct (wrapped_calls _ rest).
  - apply Forall_cons in Hpre as [Hargs Hpre]. simpl.
    unfold wrapped. rewrite Hv, Hargs.
    rewrite IH by done. simpl. rewrite <-app_assoc. simpl.
    by destruct (wrapped_calls _ rest).
Qed.

(** X6: a function wrapped by run_once is called on the arguments of each
    call until it first returns instead of raising, and never again: from
    that call on every call returns that first value, whatever its
    arguments. *)
Theorem run_once_runs_once pre args post v :
  Forall (λ args', function args' = None) pre →
  function args = Some v →
  wrapped_calls not_yet_run (pre ++ args :: post)
  = (RunOnceState (Some v) (pre ++ [args]),
     replicate (length pre) None ++ Some v :: replicate (length post) (Some v)).
Proof.
  intros Hpre Hargs. rewrite wrapped_calls_raising by done. simpl.
  unfold wrapped. simpl. rewrite Hargs.
  by rewrite (wrapped_calls_cached _ v).
Qed.

End RunOnceProofs.

Lemma run_once_runs_once_witness :
  wrapped_calls (λ n, if decide (n = 0) then None else Some (2 * n))
    not_yet_run ([0; 0] ++ 3 :: [0; 5])
  = (RunOnceState (Some 6) ([0; 0] ++ [3]),
     replicate 2 None ++ Some 6 :: replicate 2 (Some 6)).
Proof.
  apply (run_once_runs_once
           (λ n, if decide (n = 0) then None else Some (2 * n)) [0; 0] 3 [0; 5] 6).
  - by repeat constructor.
  - reflexivity.
Defined.

(** ** script/__main__.py *)

Import Main.

Lemma displaced_jobs_filter (disp_split : DispSplit) : ∀ disp_indices,
  modulus disp_split ≠ 0%Z →
  displaced_jobs disp_split disp_indices
  = (structure_sym <$>
       filter (λ i, ((Z.of_nat i + 1) mod modulus disp_split)%Z
                    = index disp_split) disp_indices,
     true).
Proof.
  intros disp_indices Hm. induction disp_indices as [|i rest IH]; [done|].
  simpl. rewrite decide_False by done. rewrite IH. rewrite filter_cons.
  by case_decide.
Qed.

#[local] Instance structure_sym_inj : Inj (=) (=) structure_sym.
Proof. by intros i j [= ->]. Qed.

(** X7: for a modulus m > 0 the processes started with the splits (0, m),
    ..., (m - 1, m) share the structures out: none of them fails, none
    does a structure twice, and each of the structures 'eq', 'sym-0', ...,
    'sym-(ndisp-1)' is done by the process of index (job number mod m) and
    by no other index. *)
Theorem structures_shared_out (m : Z) (ndisp : nat) :
  (0 < m)%Z →
  (∀ idx, (structures_done (MkDispSplit idx m) ndisp).2 = true) ∧
  (∀ idx, NoDup (structures_done (MkDispSplit idx m) ndisp).1) ∧
  (∀ name, name ∈ structure_eq :: (structure_sym <$> seq 0 ndisp) →
     ∀ idx, name ∈ (structures_done (MkDispSplit idx m) ndisp).1
            ↔ idx = (job_number name mod m)%Z).
Proof.
  intros Hm.
  assert (∀ idx, structures_done (MkDispSplit idx m) ndisp
    = ((if decide (idx = 0)%Z then [structure_eq] else []) ++
       (structure_sym <$>
          filter (λ i, ((Z.of_nat i + 1) mod m)%Z = idx) (seq 0 ndisp)),
       true)) as Hdone.
  { intros idx. unfold structures_done.
    rewrite displaced_jobs_filter by (simpl; lia). done. }
  split_and!.
  - intros idx. by rewrite Hdone.
  - intros idx. rewrite Hdone. simpl. apply NoDup_app. split_and!.
    + case_decide; [apply NoDup_singleton|apply NoDup_nil_2].
    + intros name Hname Hsym. apply list_elem_of_fmap in Hsym as (i & -> & _).
      case_decide; [|by apply elem_of_nil in Hname].
      by apply list_elem_of_singleton in Hname.
    + apply NoDup_fmap_2; [apply _|]. apply NoDup_filter, NoDup_seq.
  - intros name Hname idx. rewrite Hdone. simpl. rewrite elem_of_app.
    apply elem_of_cons in Hname as [->|Hname].
    + simpl. rewrite Z.mod_0_l by lia. split.
      * intros [Heq|Hsym].
        -- case_decide; [done|by apply elem_of_nil in Heq].
        -- by apply list_elem_of_fmap in Hsym as (i & ? & _).
      * intros ->. left. rewrite decide_True by done. apply list_elem_of_here.
    + apply list_elem_of_fmap in Hname as (i & -> & Hi). simpl. split.
      * intros [Heq|Hsym].
        -- case_decide; [|by apply elem_of_nil in Heq].
           by apply list_elem_of_singleton in Heq.
        -- apply list_elem_of_fmap in Hsym as (j & [= <-] & Hj).
           by apply list_elem_of_filter in Hj as [<- _].
      * intros ->. right. apply list_elem_of_fmap. exists i. split; [done|].
        by apply list_elem_of_filter.
Qed.

Lemma structures_shared_out_witness :
  structure_sym 4 ∈ (structures_done (MkDispSplit 2 3) 7).1
  ↔ 2%Z = (job_number (structure_sym 4) mod 3)%Z.
Proof.
  apply (proj2 (proj2 (structures_shared_out 3 7 ltac:(lia)))).
  apply list_elem_of_further, list_elem_of_fmap. exists 4. split; [done|].
  apply elem_of_seq. lia.
Defined.

(** *** Permutations of index arrays *)

Import TestSymmetry.

Lemma perm_lookup_lt (a : list nat) n i v :
  a ≡ₚ seq 0 n → a !! i = Some v → i < n ∧ v < n.
Proof.
  intros Ha Hi. split.
  - apply lookup_lt_Some in Hi. rewrite Ha, length_seq in Hi. done.
  - apply list_elem_of_lookup_2 in Hi. rewrite Ha in Hi.
    apply elem_of_seq in Hi. lia.
Qed.

Lemma perm_Forall_lt (a : list nat) n : a ≡ₚ seq 0 n → Forall (λ v, v < n) a.
Proof.
  intros Ha. apply Forall_forall. intros v Hv. rewrite Ha in Hv.
  apply elem_of_seq in Hv. lia.
Qed.

Lemma perm_length (a : list nat) n : a ≡ₚ seq 0 n → length a = n.
Proof. intros Ha. by rewrite Ha, length_seq. Qed.

Lemma fmap_lookup_total_seq (a : list nat) :
  (λ i, a !!! i) <$> seq 0 (length a) = a.
Proof.
  apply list_eq. intros i. rewrite list_lookup_fmap.
  destruct (decide (i < length a)) as [Hlt|Hge].
  - rewrite lookup_seq_lt by done. simpl.
    by rewrite list_lookup_lookup_total_lt.
  - rewrite lookup_seq_ge by lia. simpl. symmetry. apply lookup_ge_None. lia.
Qed.

Lemma StronglySorted_seq j n : StronglySorted le (seq j n).
Proof.
  revert j. induction n as [|n IH]; intros j; [constructor|].
  simpl. constructor; [apply IH|].
  apply Forall_forall. intros v Hv. apply elem_of_seq in Hv. lia.
Qed.

#[local] Instance index_le_total a : Total (index_le a).
Proof. intros i j. unfold index_le. lia. Qed.

#[local] Instance index_le_trans a : Transitive (index_le a).
Proof. intros i j k. unfold index_le. lia. Qed.

Lemma argsort_Permutation a : argsort a ≡ₚ seq 0 (length a).
Proof. apply merge_sort_Permutation. Qed.

(** Reading a permutation at the positions its argsort lists gives the
    values in ascending order. *)
Lemma argsort_values (a : list nat) n :
  a ≡ₚ seq 0 n → (λ i, a !!! i) <$> argsort a = seq 0 n.
Proof.
  intros Ha. apply (StronglySorted_unique le).
  - apply (StronglySorted_fmap (λ i, a !!! i) (index_le a) le); [done|].
    apply (StronglySorted_merge_sort (index_le a)).
  - apply StronglySorted_seq.
  - rewrite argsort_Permutation, fmap_lookup_total_seq. done.
Qed.

Lemma argsort_lookup (a : list nat) n v :
  a ≡ₚ seq 0 n → v < n →
  ∃ i, argsort a !! v = Some i ∧ a !! i = Some v.
Proof.
  intros Ha Hv.
  assert (((λ i, a !!! i) <$> argsort a) !! v = Some v) as Hval.
  { rewrite (argsort_values a n Ha). by rewrite lookup_seq_lt. }
  rewrite list_lookup_fmap in Hval.
  destruct (argsort a !! v) as [i|] eqn:Hi; [|done]. simpl in Hval.
  injection Hval as Hval. exists i. split; [done|].
  apply list_lookup_alt. split; [|done].
  apply list_elem_of_lookup_2 in Hi. rewrite argsort_Permutation in Hi.
  apply elem_of_seq in Hi. lia.
Qed.

Lemma argsort_lookup_inv (a : list nat) n i v :
  a ≡ₚ seq 0 n → a !! i = Some v → argsort a !! v = Some i.
Proof.
  intros Ha Hi. destruct (perm_lookup_lt a n i v Ha Hi) as [_ Hv].
  destruct (argsort_lookup a n v Ha Hv) as (j & Hj & Hjv).
  assert (NoDup a) as Hnd by (rewrite Ha; apply NoDup_seq).
  by rewrite (NoDup_lookup a i j v Hnd Hi Hjv).
Qed.

Lemma take_indices_Some {A} (a : list A) (idx : list nat) r :
  take_indices a idx = Some r ↔ Forall2 (λ i x, a !! i = Some x) idx r.
Proof. unfold take_indices. apply mapM_Some. Qed.

Lemma take_indices_compose_perm (a idx : list nat) :
  Forall (λ i, i < length a) idx →
  take_indices a idx = Some (compose_perm idx a).
Proof.
  intros Hidx. apply take_indices_Some. unfold compose_perm.
  apply Forall2_fmap_r, Forall_Forall2_diag.
  eapply Forall_impl; [exact Hidx|]. intros i Hi. simpl.
  destruct (lookup_lt_is_Some_2 a i Hi) as [x Hx]. by rewrite Hx.
Qed.

Lemma compose_perm_length a b : length (compose_perm a b) = length a.
Proof. unfold compose_perm. by rewrite length_fmap. Qed.

Lemma compose_perm_seq_l b : compose_perm (seq 0 (length b)) b = b.
Proof.
  unfold compose_perm. apply list_eq. intros i. rewrite list_lookup_fmap.
  destruct (decide (i < length b)) as [Hlt|Hge].
  - rewrite lookup_seq_lt by done. simpl.
    destruct (lookup_lt_is_Some_2 b i Hlt) as [x Hx]. by rewrite Hx.
  - rewrite lookup_seq_ge by lia. simpl. symmetry. apply lookup_ge_None. lia.
Qed.

Lemma compose_perm_seq_r a n :
  Forall (λ i, i < n) a → compose_perm a (seq 0 n) = a.
Proof.
  intros Ha. unfold compose_perm. induction Ha as [|i a Hi Ha IH]; [done|].
  csimpl. rewrite IH. by rewrite lookup_seq_lt.
Qed.

Lemma compose_perm_assoc a b c :
  Forall (λ i, i < length b) a →
  compose_perm (compose_perm a b) c = compose_perm a (compose_perm b c).
Proof.
  intros Ha. unfold compose_perm. rewrite <-list_fmap_compose.
  apply Forall_fmap_ext_1. eapply Forall_impl; [exact Ha|]. intros i Hi.
  simpl. rewrite list_lookup_fmap.
  destruct (lookup_lt_is_Some_2 b i Hi) as [x Hx]. by rewrite Hx.
Qed.

Lemma compose_perm_Permutation a b n :
  a ≡ₚ seq 0 n → b ≡ₚ seq 0 n → compose_perm a b ≡ₚ seq 0 n.
Proof.
  intros Ha Hb. unfold compose_perm. rewrite Ha.
  assert ((λ i, default 0 (b !! i)) <$> seq 0 n = b) as ->; [|done].
  rewrite <-(perm_length b n Hb). apply compose_perm_seq_l.
Qed.

Lemma compose_perm_argsort_l a n :
  a ≡ₚ seq 0 n → compose_perm (argsort a) a = seq 0 n.
Proof.
  intros Ha. rewrite <-(argsort_values a n Ha). unfold compose_perm.
  apply list_fmap_ext. intros k i Hi. by rewrite list_lookup_total_alt.
Qed.

Lemma compose_perm_argsort_r a n :
  a ≡ₚ seq 0 n → compose_perm a (argsort a) = seq 0 n.
Proof.
  intros Ha. apply list_eq. intros i. unfold compose_perm.
  rewrite list_lookup_fmap.
  destruct (a !! i) as [v|] eqn:Hi; simpl.
  - rewrite (argsort_lookup_inv a n i v Ha Hi). simpl.
    destruct (perm_lookup_lt a n i v Ha Hi) as [Hlt _].
    by rewrite lookup_seq_lt.
  - apply lookup_ge_None in Hi. rewrite (perm_length a n Ha) in Hi.
    by rewrite lookup_seq_ge.
Qed.

(** X8: on permutations of 0, ..., n-1 as index arrays, compose_perm
    gives a permutation again, is associative, has arange(n) as identity
    on both sides, and np.argsort gives the inverse on both sides. *)
Theorem compose_perm_group_laws (a b c : list nat) n :
  a ≡ₚ seq 0 n → b ≡ₚ seq 0 n → c ≡ₚ seq 0 n →
  compose_perm a b ≡ₚ seq 0 n ∧
  compose_perm (compose_perm a b) c = compose_perm a (compose_perm b c) ∧
  compose_perm (seq 0 n) a = a ∧
  compose_perm a (seq 0 n) = a ∧
  argsort a ≡ₚ seq 0 n ∧
  compose_perm (argsort a) a = seq 0 n ∧
  compose_perm a (argsort a) = seq 0 n.
Proof.
  intros Ha Hb Hc. split_and!.
  - by apply compose_perm_Permutation.
  - apply compose_perm_assoc. rewrite (perm_length b n Hb).
    by apply perm_Forall_lt.
  - rewrite <-(perm_length a n Ha) at 1. apply compose_perm_seq_l.
  - by apply compose_perm_seq_r, perm_Forall_lt.
  - rewrite argsort_Permutation. by rewrite (perm_length a n Ha).
  - by apply compose_perm_argsort_l.
  - by apply compose_perm_argsort_r.
Qed.

(** X9: when the permutation from phonopy's to ASE's supercell order is a
    permutation of 0, ..., n-1 and the atoms are below n,
    phonopy_sc_indices_to_ase_sc_indices returns one index per atom, and
    reading the permutation at the returned indices gives back the
    original atoms. *)
Theorem phonopy_indices_round_trip
    (get_deperm_from_phonopy_sc_to_ase_sc : nat → nat * nat * nat → list nat)
    (phonopy_disp_atoms : list nat) natoms supercell n :
  get_deperm_from_phonopy_sc_to_ase_sc natoms supercell ≡ₚ seq 0 n →
  Forall (λ atom, atom < n) phonopy_disp_atoms →
  ∃ ase_atoms,
    phonopy_sc_indices_to_ase_sc_indices get_deperm_from_phonopy_sc_to_ase_sc
      phonopy_disp_atoms natoms supercell = Some ase_atoms ∧
    length ase_atoms = length phonopy_disp_atoms ∧
    take_indices (get_deperm_from_phonopy_sc_to_ase_sc natoms supercell)
      ase_atoms = Some phonopy_disp_atoms.
Proof.
  intros Hperm Hatoms. unfold phonopy_sc_indices_to_ase_sc_indices.
  set (deperm := get_deperm_from_phonopy_sc_to_ase_sc natoms supercell) in *.
  exists (compose_perm phonopy_disp_atoms (argsort deperm)). split_and!.
  - apply take_indices_compose_perm.
    rewrite (Permutation_length (argsort_Permutation deperm)), length_seq.
    by rewrite (perm_length deperm n Hperm).
  - apply compose_perm_length.
  - apply take_indices_Some. unfold compose_perm.
    apply Forall2_fmap_l, Forall_Forall2_diag.
    eapply Forall_impl; [exact Hatoms|]. intros v Hv. simpl.
    destruct (argsort_lookup deperm n v Hperm Hv) as (i & Hi & Hiv).
    by rewrite Hi.
Qed.

Lemma oper_deperm_compose (P d : list nat) n :
  P ≡ₚ seq 0 n → d ≡ₚ seq 0 n →
  oper_deperm P d = Some (compose_perm P (compose_perm d (argsort P))).
Proof.
  intros HP Hd. unfold oper_deperm.
  rewrite (take_indices_compose_perm (argsort P) d); simpl.
  - apply take_indices_compose_perm.
    rewrite compose_perm_length, (perm_length d n Hd). by apply perm_Forall_lt.
  - rewrite (Permutation_length (argsort_Permutation P)), length_seq.
    rewrite (perm_length P n HP). by apply perm_Forall_lt.
Qed.

(** X10: the conversion of an operator's permutation from phonopy's order
    to ASE's order (an element of oper_deperms), through a permutation of
    0, ..., n-1, respects the group structure: it turns permutations into
    permutations, the identity into the identity, and a composition by
    compose_perm into the composition of the converted permutations. *)
Theorem oper_deperm_homomorphism (P d1 d2 : list nat) n :
  P ≡ₚ seq 0 n → d1 ≡ₚ seq 0 n → d2 ≡ₚ seq 0 n →
  oper_deperm P (seq 0 n) = Some (seq 0 n) ∧
  ∃ r1 r2,
    oper_deperm P d1 = Some r1 ∧ oper_deperm P d2 = Some r2 ∧
    r1 ≡ₚ seq 0 n ∧
    oper_deperm P (compose_perm d1 d2) = Some (compose_perm r1 r2).
Proof.
  intros HP Hd1 Hd2.
  assert (argsort P ≡ₚ seq 0 n) as Hinv
    by (by rewrite argsort_Permutation, (perm_length P n HP)).
  pose proof (perm_Forall_lt P n HP) as HPlt.
  pose proof (perm_Forall_lt d1 n Hd1) as Hd1lt.
  pose proof (perm_Forall_lt (argsort P) n Hinv) as Hinvlt.
  split.
  - rewrite (oper_deperm_compose P (seq 0 n) n HP) by done. f_equal.
    rewrite <-(perm_length (argsort P) n Hinv) at 1.
    rewrite compose_perm_seq_l. by apply compose_perm_argsort_r.
  - eexists _, _. split; [by eapply oper_deperm_compose|].
    split; [by eapply oper_deperm_compose|]. split.
    + by repeat apply compose_perm_Permutation.
    + rewrite (oper_deperm_compose P (compose_perm d1 d2) n HP)
        by (by apply compose_perm_Permutation).
      f_equal.
      rewrite (compose_perm_assoc P (compose_perm d1 (argsort P)))
        by (by rewrite compose_perm_length, (perm_length d1 n Hd1)).
      f_equal.
      rewrite (compose_perm_assoc d1 (argsort P))
        by (by rewrite (perm_length _ n Hinv)).
      rewrite <-(compose_perm_assoc (argsort P) P)
        by (by rewrite (perm_length P n HP)).
      rewrite (compose_perm_argsort_l P n HP).
      assert (compose_perm (seq 0 n) (compose_perm d2 (argsort P))
              = compose_perm d2 (argsort P)) as ->.
      { rewrite <-(perm_length d2 n Hd2) at 1.
        rewrite <-(compose_perm_length d2 (argsort P)).
        apply compose_perm_seq_l. }
      apply compose_perm_assoc. by rewrite (perm_length d2 n Hd2).
Qed.

Lemma compose_perm_group_laws_witness :
  compose_perm [2; 0; 1] [1; 0; 2] ≡ₚ seq 0 3 ∧
  compose_perm (compose_perm [2; 0; 1] [1; 0; 2]) [1; 2; 0]
  = compose_perm [2; 0; 1] (compose_perm [1; 0; 2] [1; 2; 0]) ∧
  compose_perm (seq 0 3) [2; 0; 1] = [2; 0; 1] ∧
  compose_perm [2; 0; 1] (seq 0 3) = [2; 0; 1] ∧
  argsort [2; 0; 1] ≡ₚ seq 0 3 ∧
  compose_perm (argsort [2; 0; 1]) [2; 0; 1] = seq 0 3 ∧
  compose_perm [2; 0; 1] (argsort [2; 0; 1]) = seq 0 3.
Proof.
  apply (compose_perm_group_laws [2; 0; 1] [1; 0; 2] [1; 2; 0] 3);
    apply (bool_decide_unpack _); by vm_compute.
Defined.

Lemma phonopy_indices_round_trip_witness :
  ∃ ase_atoms,
    phonopy_sc_indices_to_ase_sc_indices (λ _ _, [2; 0; 1]) [0; 0; 2] 1 (3, 1, 1)
    = Some ase_atoms ∧
    length ase_atoms = 3 ∧
    take_indices [2; 0; 1] ase_atoms = Some [0; 0; 2].
Proof.
  apply (phonopy_indices_round_trip (λ _ _, [2; 0; 1]) [0; 0; 2] 1 (3, 1, 1) 3).
  - apply (bool_decide_unpack _). by vm_compute.
  - repeat constructor; lia.
Defined.

Lemma oper_deperm_homomorphism_witness :
  oper_deperm [2; 0; 1] (seq 0 3) = Some (seq 0 3) ∧
  ∃ r1 r2,
    oper_deperm [2; 0; 1] [1; 0; 2] = Some r1 ∧
    oper_deperm [2; 0; 1] [1; 2; 0] = Some r2 ∧
    r1 ≡ₚ seq 0 3 ∧
    oper_deperm [2; 0; 1] (compose_perm [1; 0; 2] [1; 2; 0])
    = Some (compose_perm r1 r2).
Proof.
  apply (oper_deperm_homomorphism [2; 0; 1] [1; 0; 2] [1; 2; 0] 3);
    apply (bool_decide_unpack _); by vm_compute.
Defined.

(** *** Displacements *)

Lemma unpack_rows {V} : ∀ (rows : list (list V)) pairs,
  mapM (λ row, match row with
               | [] => None
               | i :: xyz => Some (i, xyz)
               end) rows = Some pairs ↔
  rows = zip_with cons pairs.*1 pairs.*2.
Proof.
  intros rows pairs. rewrite mapM_Some. split.
  - induction 1 as [|row [i xyz] rows pairs Hrow _ IH]; [done|].
    destruct row as [|i' xyz']; [done|]. injection Hrow as -> ->.
    csimpl. by rewrite IH.
  - revert rows. induction pairs as [|[i xyz] pairs IH]; intros rows ->.
    + constructor.
    + csimpl. constructor; [done|]. by apply IH.
Qed.

(** X11: get_phonopy_displacements splits the rows [i, x, y, z] into the
    list of atoms and the list of vectors, both as long as the list of
    rows, from which the rows are put together again; on the other hand a
    pair of lists of one length, not empty, is what it returns for the
    rows made of them.  For no rows at all it returns the empty tuple, not
    a pair of empty lists. *)
Theorem get_phonopy_displacements_round_trip {V} (rows : list (list V))
    (atoms : list V) (carts : list (list V)) :
  get_phonopy_displacements (V:=V) [] = Some EmptyTuple ∧
  (get_phonopy_displacements rows = Some (AtomsAndCarts atoms carts) ↔
   rows ≠ [] ∧ length atoms = length rows ∧ length carts = length rows ∧
   rows = zip_with cons atoms carts).
Proof.
  split; [done|]. unfold get_phonopy_displacements. split.
  - destruct (mapM _ rows) as [pairs|] eqn:Hpairs; [|done]. simpl.
    apply unpack_rows in Hpairs.
    destruct pairs as [|p pairs]; [done|]. intros [= <- <-].
    subst rows. csimpl.
    split_and!; [done|..|done];
      rewrite length_zip_with, !length_fmap; lia.
  - intros (Hne & Hatoms & Hcarts & Hrows).
    assert (mapM (λ row, match row with
                         | [] => None
                         | i :: xyz => Some (i, xyz)
                         end) rows = Some (zip atoms carts)) as ->.
    { apply unpack_rows. rewrite fst_zip, snd_zip by lia. done. }
    simpl. destruct (zip atoms carts) as [|p pairs] eqn:Hzip.
    + destruct atoms, carts, rows; simplify_eq/=; done.
    + rewrite <-Hzip. by rewrite fst_zip, snd_zip by lia.
Qed.

Lemma get_phonopy_displacements_round_trip_witness :
  get_phonopy_displacements [[0; 1; 0; 0]; [0; 0; 1; 0]; [2; 0; 0; 1]]
  = Some (AtomsAndCarts [0; 0; 2] [[1; 0; 0]; [0; 1; 0]; [0; 0; 1]]).
Proof.
  apply (proj2 (get_phonopy_displacements_round_trip
                  [[0; 1; 0; 0]; [0; 0; 1; 0]; [2; 0; 0; 1]]
                  [0; 0; 2] [[1; 0; 0]; [0; 1; 0]; [0; 0; 1]])).
  by repeat split.
Defined.

Section DisplacedProofs.
Context {P D : Type} (add : P → D → P).

Lemma displaced_from_lookup (eq_positions : list P) : ∀ disps k structure,
  (displaced_from add eq_positions disps).1 !! k = Some structure →
  ∃ i disp p, disps !! k = Some (i, disp) ∧ eq_positions !! i = Some p ∧
              structure = <[i := add p disp]> eq_positions.
Proof.
  induction disps as [|[i disp] disps IH]; intros k structure Hk; [done|].
  simpl in Hk. destruct (eq_positions !! i) as [p|] eqn:Hp; [|done].
  destruct (displaced_from add eq_positions disps) as [yielded e].
  destruct k as [|k]; simpl in Hk.
  - injection Hk as <-. by exists i, disp, p.
  - by apply IH.
Qed.

Lemma displaced_from_end (eq_positions : list P) : ∀ disps,
  (displaced_from add eq_positions disps).2 ≠ AssertionError ∧
  ((displaced_from add eq_positions disps).2 = Exhausted ↔
   Forall (λ d, d.1 < length eq_positions) disps) ∧
  ((displaced_from add eq_positions disps).2 = Exhausted →
   length (displaced_from add eq_positions disps).1 = length disps).
Proof.
  induction disps as [|[i disp] disps (IH1 & IH2 & IH3)].
  - split_and!; [done| |done]. split; [constructor|done].
  - simpl. destruct (eq_positions !! i) as [p|] eqn:Hp.
    + destruct (displaced_from add eq_positions disps) as [yielded e].
      simpl in *. split_and!; [done| |].
      * rewrite Forall_cons, <-IH2. simpl. apply lookup_lt_Some in Hp.
        split; [by intros ->|by intros [_ ->]].
      * intros He. by rewrite IH3.
    + simpl. split_and!; [done| |done]. split; [done|].
      intros [Hi _]%Forall_cons. simpl in Hi.
      apply lookup_ge_None in Hp. lia.
Qed.

(** X12: every structure iter_displaced_structures yields is the
    equilibrium with the one atom of its displacement moved by that
    displacement: all other atoms are where they were, so displacements
    never add up.  Nothing is yielded when the two lists differ in
    length; the iteration runs to its end, with one structure per
    displacement, exactly when they agree in length and every site is an
    atom of the structure. *)
Theorem displaced_structures_move_one_atom (positions : list P)
    (disp_sites : list nat) (disp_carts : list D) :
  let result := iter_displaced_structures add positions disp_sites disp_carts in
  (length disp_sites ≠ length disp_carts → result = ([], AssertionError)) ∧
  (∀ k structure, result.1 !! k = Some structure →
     ∃ i disp p, disp_sites !! k = Some i ∧ disp_carts !! k = Some disp ∧
       positions !! i = Some p ∧
       length structure = length positions ∧
       structure !! i = Some (add p disp) ∧
       ∀ j, j ≠ i → structure !! j = positions !! j) ∧
  (result.2 = Exhausted ↔
     length disp_sites = length disp_carts ∧
     Forall (λ i, i < length positions) disp_sites) ∧
  (result.2 = Exhausted → length result.1 = length disp_sites).
Proof.
  unfold iter_displaced_structures. cbv zeta.
  destruct (decide (length disp_sites = length disp_carts)) as [Hlen|Hlen].
  - destruct (displaced_from_end positions (zip disp_sites disp_carts))
      as (_ & Hend & Hall).
    split_and!.
    + done.
    + intros k structure Hk.
      apply displaced_from_lookup in Hk as (i & disp & p & Hk & Hp & ->).
      apply lookup_zip_Some in Hk as [Hi Hdisp].
      exists i, disp, p. split_and!; [done..| | |].
      * apply length_insert.
      * apply list_lookup_insert_eq. by eapply lookup_lt_Some.
      * intros j Hj. by apply list_lookup_insert_ne.
    + rewrite Hend. split.
      * intros Hall'. split; [done|]. apply Forall_forall. intros i Hi.
        apply list_elem_of_lookup in Hi as [k Hk].
        destruct (lookup_lt_is_Some_2 disp_carts k) as [disp Hdisp].
        { rewrite <-Hlen. by eapply lookup_lt_Some. }
        eapply Forall_forall in Hall'.
        2:{ eapply list_elem_of_lookup_2, lookup_zip_Some. by split. }
        done.
      * intros [_ Hsites]. apply Forall_forall. intros [i disp] Hin.
        apply elem_of_zip_l in Hin. simpl.
        by eapply Forall_forall in Hsites.
    + intros He. rewrite (Hall He), length_zip. lia.
  - simpl. split_and!; [done|done| |done]. split; [done|]. by intros [? _].
Qed.

End DisplacedProofs.

Lemma displaced_structures_move_one_atom_witness :
  iter_displaced_structures Z.add [10; 20; 30]%Z [1; 0] [5; -1]%Z
  = ([[10; 25; 30]; [9; 20; 30]]%Z, Exhausted) ∧
  ∃ i disp p, [1; 0] !! 0 = Some i ∧ [5; -1]%Z !! 0 = Some disp ∧
    [10; 20; 30]%Z !! i = Some p ∧
    length [10; 25; 30]%Z = length [10; 20; 30]%Z ∧
    [10; 25; 30]%Z !! i = Some (p + disp)%Z ∧
    ∀ j, j ≠ i → [10; 25; 30]%Z !! j = [10; 20; 30]%Z !! j.
Proof.
  split; [reflexivity|].
  exact (proj1 (proj2 (displaced_structures_move_one_atom Z.add
           [10; 20; 30]%Z [1; 0] [5; -1]%Z)) 0 [10; 25; 30]%Z eq_refl).
Defined.

(** *** Polarizations *)

Lemma xyz_index_Some c d :
  xyz_index c = Some d →
  (c = "x"%char ∧ d = 0) ∨ (c = "y"%char ∧ d = 1) ∨ (c = "z"%char ∧ d = 2).
Proof.
  unfold xyz_index. repeat case_decide; intros [= <-]; naive_solver.
Qed.

(** X13: a polarization is accepted, with indices d_i and d_o below 3,
    exactly when it is one of the nine default polarizations; on these the
    indices are the nine pairs, in order, so the default never raises. *)
Theorem polarization_indices_accepts_defaults :
  polarization_indices <$> default_polarizations
  = Some <$> (i ← [0; 1; 2]; o ← [0; 1; 2]; [(i, o)]) ∧
  ∀ polarization d_i d_o,
    polarization_indices polarization = Some (d_i, d_o) →
    d_i < 3 ∧ d_o < 3 ∧ polarization ∈ default_polarizations.
Proof.
  split; [reflexivity|]. intros polarization d_i d_o Hp.
  destruct polarization as [|c0 [|c1 [|c2 rest]]]; try done.
  simpl in Hp.
  destruct (xyz_index c0) as [i|] eqn:Hi; [|done]. simpl in Hp.
  destruct (xyz_index c1) as [o|] eqn:Ho; [|done]. injection Hp as <- <-.
  apply xyz_index_Some in Hi, Ho.
  destruct Hi as [[-> ->]|[[-> ->]|[-> ->]]];
    destruct Ho as [[-> ->]|[[-> ->]|[-> ->]]];
    (split_and!; [lia|lia|]);
    apply (bool_decide_unpack _); by vm_compute.
Qed.

Lemma polarization_indices_accepts_defaults_witness :
  0 < 3 ∧ 1 < 3 ∧ "xy"%string ∈ default_polarizations.
Proof.
  exact (proj2 polarization_indices_accepts_defaults "xy"%string 0 1 eq_refl).
Defined.

(** ** The construction for generators that commute *)

Section InitCommuting.
Context {G K : Type} `{Countable K}.
Variable func : G → G → G.
Variable make_hashable : G → K.
Hypothesis make_hashable_inj : Inj (=) (=) make_hashable.
Hypothesis func_assoc : ∀ a b c, func (func a b) c = func a (func b c).

Local Abbreviation build := (@TestUtils.build G K _ _).
Local Abbreviation add_product := (TestUtils.add_product make_hashable).
Local Abbreviation while_loop := (TestUtils.while_loop func make_hashable).
Local Abbreviation for_loop := (TestUtils.for_loop func make_hashable).
Local Abbreviation seed := (TestUtils.seed make_hashable).
Local Abbreviation init := (TestUtils.init func make_hashable).
Local Abbreviation closure := (TestUtils.closure func).
Local Abbreviation build_inv := (TestUtils.build_inv func make_hashable).

(** The members a run of the [while] loop appends are products of its
    generator with earlier members. *)
Lemma while_loop_new_members gens fuel gi gen : ∀ rhs (st st' : build),
  while_loop fuel gi gen rhs st = Some st' →
  build_inv gens st →
  closure gens gen →
  gi < length (members st.1) →
  ∀ k m, length (members st.1) ≤ k → members st'.1 !! k = Some m →
    ∃ b m', b < k ∧ members st'.1 !! b = Some m' ∧ m = func gen m'.
Proof.
  induction fuel as [|fuel IH]; intros rhs st st' Hrun Hinv Hgen Hgi k m Hk Hm;
    [discriminate|].
  simpl in Hrun. destruct (members st.1 !! rhs) as [m0|] eqn:Hm0.
  - pose proof (add_product_inv func make_hashable gens gi rhs gen m0 st
                  Hinv Hgen Hm0 Hgi) as Hinv1.
    pose proof (add_product_extends make_hashable gi rhs (func gen m0) st)
      as Hext.
    assert (gi < length (members (add_product gi rhs (func gen m0) st).1))
      as Hgi1 by (apply extends_length in Hext; lia).
    destruct (while_loop_inv func make_hashable gens fuel gi gen (S rhs) _ st'
                Hrun Hinv1 Hgen Hgi1) as [_ Hext'].
    destruct (decide (length (members (add_product gi rhs (func gen m0) st).1)
                      ≤ k)) as [Hle|Hgt].
    + by eapply (IH (S rhs) _ st').
    + exists rhs, m0. apply lookup_lt_Some in Hm0 as Hlt.
      split_and!; [lia|..].
      * eapply extends_lookup; [exact Hext'|].
        by eapply extends_lookup; [exact Hext|].
      * assert (members (add_product gi rhs (func gen m0) st).1 !! k
                = Some (func gen m0)) as Hnew.
        { destruct st as [t seen]. unfold TestUtils.add_product in *.
          case_decide; simpl in *; [lia|].
          rewrite length_app in Hgt. simpl in Hgt.
          apply list_lookup_middle. lia. }
        apply (extends_lookup _ _ _ _ Hext') in Hnew. congruence.
  - injection Hrun as <-. apply lookup_lt_Some in Hm. lia.
Qed.

(** A run of the [while] loop keeps the members closed under a generator
    that commutes with the generator of the run, and closes them under the
    latter. *)
Lemma while_loop_keeps_closed gens fuel gi gen g (st st' : build) :
  while_loop fuel gi gen 0 st = Some st' →
  build_inv gens st →
  closure gens gen →
  gi < length (members st.1) →
  func g gen = func gen g →
  (∀ m, m ∈ members st.1 → func g m ∈ members st.1) →
  ∀ m, m ∈ members st'.1 → func g m ∈ members st'.1.
Proof.
  intros Hrun Hinv Hgen Hgi Hcomm Hclosed.
  destruct (while_loop_inv func make_hashable gens fuel gi gen 0 st st'
              Hrun Hinv Hgen Hgi) as [_ Hext].
  assert (∀ k m, members st'.1 !! k = Some m → func g m ∈ members st'.1)
    as Hall.
  { intros k. induction k as [k IH] using lt_wf_ind. intros m Hm.
    destruct (decide (k < length (members st.1))) as [Hlt|Hge].
    - destruct (lookup_lt_is_Some_2 _ _ Hlt) as [m' Hm'].
      pose proof (extends_lookup _ _ _ _ Hext Hm') as Hm''.
      assert (m' = m) as -> by congruence.
      apply list_elem_of_lookup_2, Hclosed, list_elem_of_lookup in Hm'
        as [j Hj].
      eapply list_elem_of_lookup_2, extends_lookup; [exact Hext|exact Hj].
    - destruct (while_loop_new_members gens fuel gi gen 0 st st' Hrun Hinv
                  Hgen Hgi k m ltac:(lia) Hm) as (b & m' & Hb & Hm' & ->).
      rewrite <-func_assoc, Hcomm, func_assoc.
      pose proof (IH b Hb m' Hm') as Hin.
      apply list_elem_of_lookup in Hin as [j Hj].
      pose proof (while_loop_closed func make_hashable gens fuel gi gen 0 st st'
                    Hrun Hinv Hgen Hgi j _ ltac:(lia) Hj) as Hprod.
      apply list_elem_of_fmap in Hprod as (y & Heq & Hy).
      by apply make_hashable_inj in Heq as ->. }
  intros m Hm. apply list_elem_of_lookup in Hm as [k Hk]. by eapply Hall.
Qed.

Lemma while_loop_closes gens fuel gi gen (st st' : build) :
  while_loop fuel gi gen 0 st = Some st' →
  build_inv gens st →
  closure gens gen →
  gi < length (members st.1) →
  ∀ m, m ∈ members st'.1 → func gen m ∈ members st'.1.
Proof.
  intros Hrun Hinv Hgen Hgi m Hm. apply list_elem_of_lookup in Hm as [k Hk].
  pose proof (while_loop_closed func make_hashable gens fuel gi gen 0 st st'
                Hrun Hinv Hgen Hgi k m ltac:(lia) Hk) as Hprod.
  apply list_elem_of_fmap in Hprod as (y & Heq & Hy).
  by apply make_hashable_inj in Heq as ->.
Qed.

Lemma for_loop_closes gens fuel : ∀ pairs (st st' : build) (applied : list G),
  for_loop fuel pairs st = Some st' →
  build_inv gens st →
  Forall (λ p, p.1 < length (members st.1) ∧ p.2 ∈ gens) pairs →
  (∀ a b, a ∈ gens → b ∈ gens → func a b = func b a) →
  (∀ g, g ∈ applied → g ∈ gens) →
  (∀ g m, g ∈ applied → m ∈ members st.1 → func g m ∈ members st.1) →
  ∀ g m, g ∈ applied ++ pairs.*2 → m ∈ members st'.1 →
    func g m ∈ members st'.1.
Proof.
  induction pairs as [|[gi gen] rest IH];
    intros st st' applied Hrun Hinv Hall Hcomm Hgens Hclosed.
  - injection Hrun as <-. simpl. rewrite app_nil_r. done.
  - simpl in Hrun.
    destruct (while_loop fuel gi gen 0 st) as [st1|] eqn:Hw; [|discriminate].
    simpl in Hrun. apply Forall_cons in Hall as [[Hgi Hgen] Hall].
    simpl in Hgi, Hgen.
    assert (closure gens gen) as Hcl by by apply closure_gen.
    destruct (while_loop_inv func make_hashable gens fuel gi gen 0 st st1
                Hw Hinv Hcl Hgi) as [Hinv1 Hext1].
    intros g m Hg Hm. csimpl in Hg.
    eapply (IH st1 st' (applied ++ [gen])); [done|done|..|done].
    + eapply Forall_impl; [exact Hall|]. intros [i x] [Hi Hx]. simpl in *.
      split; [|done]. apply extends_length in Hext1. lia.
    + done.
    + intros x [Hx|Hx]%elem_of_app; [by apply Hgens|].
      by apply list_elem_of_singleton in Hx as ->.
    + intros x y [Hx|Hx]%elem_of_app Hy.
      * eapply (while_loop_keeps_closed gens fuel gi gen x st st1);
          [done..| | |done]; [apply Hcomm; auto|].
        intros m' Hm'. by apply Hclosed.
      * apply list_elem_of_singleton in Hx as ->.
        by eapply (while_loop_closes gens fuel gi gen st st1).
    + rewrite <-app_assoc. done.
Qed.

(** X14: for generators that commute with one another and have pairwise
    distinct canonical forms, under an associative operation and a
    canonicalization that tells different elements apart, the construction
    is right: the members are exactly the elements of the generated
    semigroup, each stored once, and the product of any two members is a
    member. *)
Theorem commuting_generators_enumerate gens fuel t :
  NoDup (make_hashable <$> gens) →
  (∀ a b, a ∈ gens → b ∈ gens → func a b = func b a) →
  init fuel gens = Some t →
  NoDup (members t) ∧
  (∀ x, x ∈ members t ↔ closure gens x) ∧
  (∀ a b, a ∈ members t → b ∈ members t → func a b ∈ members t).
Proof.
  intros Hnodup Hcomm Hinit.
  destruct (init_run func make_hashable gens fuel t Hinit)
    as (st & <- & Hinv & Hext).
  assert (∀ g m, g ∈ gens → m ∈ members st.1 → func g m ∈ members st.1)
    as Hgen.
  { destruct gens as [|g0 gens].
    - intros g m Hg. by apply elem_of_nil in Hg.
    - unfold TestUtils.init in Hinit.
      destruct (for_loop _ _ _) as [st0|] eqn:Hrun; [|discriminate].
      injection Hinit as Heq.
      destruct (seed_facts func make_hashable (g0 :: gens)) as (Hinv0 & _).
      destruct (seed_distinct func make_hashable (g0 :: gens) Hnodup)
        as [Hm Hidx].
      intros g m Hg Hmem. rewrite <-Heq in *.
      eapply (for_loop_closes (g0 :: gens) fuel _ _ st0 []);
        [exact Hrun|done| |done| | | |done].
      + apply Forall_forall. intros [i x] Hix. split.
        * pose proof (seed_pairs func make_hashable (g0 :: gens)) as Hpairs.
          simpl in Hpairs. eapply Forall_forall in Hpairs; [|exact Hix].
          apply Hpairs.
        * apply elem_of_zip_r in Hix.
          by rewrite (inv_gens _ _ _ _ Hinv0) in Hix.
      + intros x Hx. by apply elem_of_nil in Hx.
      + intros x y Hx. by apply elem_of_nil in Hx.
      + rewrite app_nil_l, snd_zip; rewrite (inv_gens _ _ _ _ Hinv0); [done|].
        rewrite Hidx, length_seq. done. }
  assert (∀ a, closure gens a →
            ∀ b, b ∈ members st.1 → func a b ∈ members st.1) as Hprod.
  { intros a Ha. induction Ha as [g Hg|x y _ IHx _ IHy]; intros b Hb.
    - by apply Hgen.
    - rewrite func_assoc. by apply IHx, IHy. }
  split_and!.
  - eapply NoDup_fmap_1. apply Hinv.
  - intros x. split; [apply (inv_closure _ _ _ _ Hinv)|].
    intros Hx. induction Hx as [g Hg|a b Ha IHa _ IHb].
    + destruct (seed_distinct func make_hashable gens Hnodup) as [Hm _].
      destruct Hext as (_ & _ & ms & _ & -> & _).
      apply elem_of_app. left. by rewrite Hm.
    + by apply Hprod.
  - intros a b Ha Hb. apply Hprod; [|done]. by apply (inv_closure _ _ _ _ Hinv).
Qed.

End InitCommuting.

Lemma add_mod_comm n x y : add_mod n x y = add_mod n y x.
Proof. unfold add_mod. f_equal. lia. Qed.

Lemma init_add_mod6_two :
  init (add_mod 6) id 7 [2; 3]%Z
  = Some (MkTree [2; 3]%Z [0; 1] [2; 3; 4; 5; 0; 1]%Z
            [Leaf 0; Leaf 1; Binary 0 0; Binary 0 1; Binary 0 2; Binary 0 3]).
Proof. by vm_compute. Qed.

Lemma commuting_generators_enumerate_witness :
  NoDup [2; 3; 4; 5; 0; 1]%Z ∧
  (∀ x, x ∈ [2; 3; 4; 5; 0; 1]%Z ↔ closure (add_mod 6) [2; 3]%Z x) ∧
  (∀ a b, a ∈ [2; 3; 4; 5; 0; 1]%Z → b ∈ [2; 3; 4; 5; 0; 1]%Z →
     add_mod 6 a b ∈ [2; 3; 4; 5; 0; 1]%Z).
Proof.
  refine (commuting_generators_enumerate (add_mod 6) id _ _ [2; 3]%Z 7
            (MkTree [2; 3]%Z [0; 1] [2; 3; 4; 5; 0; 1]%Z
               [Leaf 0; Leaf 1; Binary 0 0; Binary 0 1; Binary 0 2; Binary 0 3])
            _ _ init_add_mod6_two).
  - intros a b c. apply add_mod_assoc.
  - apply (bool_decide_unpack _). by vm_compute.
  - intros a b _ _. apply add_mod_comm.
Defined.

(** *** [parse_disp_split] *)

Lemma split_on_not_nil sep s : split_on sep s ≠ [].
Proof.
  destruct s as [|c s]; [done|]. simpl. case_decide; [done|].
  by destruct (split_on sep s).
Qed.

Lemma split_on_one sep : ∀ s a,
  split_on sep s = [a] ↔ s = a ∧ sep ∉ String.list_ascii_of_string a.
Proof.
  induction s as [|c s IH]; intros a.
  - simpl. split.
    + intros [= <-]. split; [done|]. apply not_elem_of_nil.
    + by intros [<- _].
  - simpl. case_decide as Hc.
    + split.
      * intros [= _ Hs]. by destruct (split_on_not_nil sep s).
      * intros [<- Hnot]. simpl in Hnot. subst c.
        destruct Hnot. apply list_elem_of_here.
    + destruct (split_on sep s) as [|part parts] eqn:Hs;
        [by destruct (split_on_not_nil sep s)|].
      split.
      * intros [= <- ->]. destruct (proj1 (IH part) eq_refl) as [-> Hnot].
        split; [done|]. simpl. rewrite not_elem_of_cons. by split; [congruence|].
      * intros [<- Hnot]. simpl in Hnot. apply not_elem_of_cons in Hnot as [_ Hnot].
        pose proof (proj2 (IH s) (conj eq_refl Hnot)) as Heq.
        by injection Heq as -> ->.
Qed.

Lemma split_on_two sep : ∀ s a b,
  split_on sep s = [a; b] ↔
  (s = (a +:+ String sep b)%string) ∧
  (sep ∉ String.list_ascii_of_string a) ∧
  (sep ∉ String.list_ascii_of_string b).
Proof.
  induction s as [|c s IH]; intros a b.
  - simpl. split; [done|]. intros [Hs _]. by destruct a.
  - simpl. case_decide as Hc.
    + subst c. split.
      * intros [= <- Hs]. apply split_on_one in Hs as [-> Hnot].
        split_and!; [done|apply not_elem_of_nil|done].
      * intros (Hs & Ha & Hb). destruct a as [|c a]; simpl in Hs.
        -- injection Hs as ->. f_equal. by apply split_on_one.
        -- injection Hs as <- _. destruct Ha. apply list_elem_of_here.
    + destruct (split_on sep s) as [|part parts] eqn:Hs;
        [by destruct (split_on_not_nil sep s)|].
      split.
      * intros [= <- ->].
        destruct (proj1 (IH part b) eq_refl) as (-> & Ha & Hb).
        split_and!; [done| |done]. simpl. rewrite not_elem_of_cons.
        by split; [congruence|].
      * intros (Heq & Ha & Hb). destruct a as [|c' a]; simpl in Heq.
        -- injection Heq as -> _. done.
        -- injection Heq as <- ->. simpl in Ha.
           apply not_elem_of_cons in Ha as [_ Ha].
           pose proof (proj2 (IH a b) (conj eq_refl (conj Ha Hb))) as Heq.
           by injection Heq as -> ->.
Qed.

(** X15: parse_disp_split accepts exactly the strings IDX,MOD with a
    single comma whose two fields int reads as integers with
    0 <= IDX < MOD, and returns these; so an accepted split has a positive
    modulus. *)
Theorem parse_disp_split_accepts (int : string → option Z) s disp_split :
  parse_disp_split int s = inl disp_split ↔
  ∃ idx mod_,
    (s = (idx +:+ "," +:+ mod_)%string) ∧
    (","%char ∉ String.list_ascii_of_string idx) ∧
    (","%char ∉ String.list_ascii_of_string mod_) ∧
    int idx = Some (index disp_split) ∧
    int mod_ = Some (modulus disp_split) ∧
    (0 ≤ index disp_split < modulus disp_split)%Z.
Proof.
  unfold parse_disp_split. split.
  - destruct (split_on "," s) as [|a [|b [|c parts]]] eqn:Hs; try done.
    apply split_on_two in Hs as (-> & Ha & Hb).
    destruct (int a) as [i|] eqn:Hi; [|done].
    destruct (int b) as [m|] eqn:Hm; [|done].
    case_decide; [|done]. intros [= <-]. by exists a, b.
  - intros (a & b & -> & Ha & Hb & Hi & Hm & Hrange).
    rewrite (proj2 (split_on_two "," _ a b)) by done.
    rewrite Hi, Hm. rewrite decide_True by done. by destruct disp_split.
Qed.

Lemma parse_disp_split_accepts_witness :
  parse_disp_split (λ s, if decide (s = "2"%string) then Some 2%Z
                         else if decide (s = "3"%string) then Some 3%Z
                         else None) "2,3" = inl (MkDispSplit 2 3).
Proof.
  apply (proj2 (parse_disp_split_accepts _ "2,3" (MkDispSplit 2 3))).
  exists "2"%string, "3"%string.
  split_and!; [done| | |done|done|simpl; lia..];
    apply (bool_decide_unpack _); by vm_compute.
Defined.
